(** * flwr.cli.flower_toml: validation and defaulting of [flower.toml]

    A shallow embedding of [src/py/flwr/cli/flower_toml.py].

    - A configuration is a Python [Dict[str, Any]]: a finite map from
      strings to dynamically typed values ([value]).
    - Python exceptions are explicit: [result A] is either a returned
      value or a raised exception.
    - The module system ([importlib.import_module], [getattr]) is a
      collaborator outside the file; it is a [Host] record whose
      operations thread a host state (importing a module runs its
      top-level code).
    - The file system and the TOML parser behind [load_flower_toml] are
      collaborators too: an [Environment] record.
    - [apply_defaults] is given twice: on trees of values, and in place
      ([InPlace.apply_defaults]) on a store in which dicts are held by
      reference, as the Python function mutates and shares them. *)

From stdpp Require Import gmap strings list fin_maps.
From Stdlib Require Import ZArith Ascii String.

Local Open Scope string_scope.

(** ** Values *)

(** What [tomli.loads] can put under a key.  Floats and dates behave like
    [VInt] for every operation this file performs on a value (they are
    not containers, not subscriptable, not dicts and not strings), so
    they are not given constructors of their own. *)
#[local] Unset Elimination Schemes.
Inductive value : Type :=
  | VStr (s : string)
  | VInt (n : Z)
  | VBool (b : bool)
  | VList (l : list value)
  | VDict (d : gmap string value).

#[local] Set Elimination Schemes.

Abbreviation dict := (gmap string value).

(** ** Exceptions and results *)

Inductive exn : Type :=
  | KeyError (key : string)
  | TypeError
  | AttributeError
  | ModuleNotFoundError
  | ImportError
  | OtherError (name : string).

Inductive result (A : Type) : Type :=
  | Ok (a : A)
  | Raise (e : exn).
Arguments Ok {A} a.
Arguments Raise {A} e.

Definition rbind {A B} (m : result A) (f : A → result B) : result B :=
  match m with
  | Ok a => f a
  | Raise e => Raise e
  end.

(** Sequencing: the rest of the block runs unless an exception was
    raised. *)
Notation "'let*' x ':=' m 'in' k" := (rbind m (λ x, k))
  (at level 10, x name, m at level 100, k at level 200, only parsing).
Notation "'let*' ' x ':=' m 'in' k" := (rbind m (λ x, k))
  (at level 10, x pattern, m at level 100, k at level 200, only parsing).

(** ** apply_defaults *)

(** The loop body of [apply_defaults], with the recursive call abstracted:
    [rec cv dv] is the value found under [key] after
    [if isinstance(config[key], dict) and isinstance(defaults[key], dict):
         apply_defaults(config[key], defaults[key])]. *)
Definition apply_defaults_step (rec : value → value → value)
    (key : string) (dv : value) (config : dict) : dict :=
  match config !! key with
  | Some cv => <[key := rec cv dv]> config
  | None => <[key := dv]> config
  end.

(** [apply_defaults(config[key], defaults[key])] behind its two
    [isinstance] tests; recursion is on the defaults tree. *)
Fixpoint apply_defaults_nested (cv dv : value) {struct dv} : value :=
  match cv, dv with
  | VDict c, VDict d =>
      VDict (map_fold (apply_defaults_step apply_defaults_nested) c d)
  | _, _ => cv
  end.

(** [for key in defaults: ...; return config].  The dict is mutated in
    place in Python; here the updated dict is threaded through the loop. *)
Definition apply_defaults (config defaults : dict) : dict :=
  map_fold (apply_defaults_step apply_defaults_nested) config defaults.


(** ** Python strings *)

(** The double-quote character, for messages that quote a property. *)
Definition dq : string := String "034"%char EmptyString.

(** [not s] on a string. *)
Definition str_is_empty (s : string) : bool :=
  match s with
  | EmptyString => true
  | String _ _ => false
  end.

(** [needle in hay] on strings: substring test. *)
Fixpoint str_contains (needle hay : string) : bool :=
  if String.prefix needle hay then true
  else match hay with
       | EmptyString => false
       | String _ rest => str_contains needle rest
       end.

(** [sep in s] for a one-character [sep]. *)
Fixpoint str_has_char (sep : ascii) (s : string) : bool :=
  match s with
  | EmptyString => false
  | String c rest => Ascii.eqb c sep || str_has_char sep rest
  end.

(** [s.partition(sep)] for a one-character separator: the text before the
    first [sep], the separator itself, the text after it; when [sep] does
    not occur, [s] and two empty strings. *)
Fixpoint str_partition (sep : ascii) (s : string) : string * string * string :=
  match s with
  | EmptyString => (EmptyString, EmptyString, EmptyString)
  | String c rest =>
      if Ascii.eqb c sep then (EmptyString, String sep EmptyString, rest)
      else let '(before, mid, after) := str_partition sep rest in
           (String c before, mid, after)
  end.

(** [s.split(sep)] for a one-character separator. *)
Fixpoint str_split (sep : ascii) (s : string) : list string :=
  match s with
  | EmptyString => [EmptyString]
  | String c rest =>
      if Ascii.eqb c sep then EmptyString :: str_split sep rest
      else match str_split sep rest with
           | piece :: pieces => String c piece :: pieces
           | [] => [String c EmptyString]
           end
  end.

(** ** Python operators on values *)

(** [key in v]: key membership on a dict, substring on a string, element
    equality on a list, [TypeError] on anything that is not iterable. *)
Definition py_in (key : string) (v : value) : result bool :=
  match v with
  | VDict d => Ok (bool_decide (is_Some (d !! key)))
  | VStr s => Ok (str_contains key s)
  | VList l =>
      Ok (existsb (λ x, match x with
                        | VStr s => String.eqb s key
                        | _ => false
                        end) l)
  | VInt _ | VBool _ => Raise TypeError
  end.

(** [v[key]] with a string key: only a dict accepts it. *)
Definition py_getitem (v : value) (key : string) : result value :=
  match v with
  | VDict d =>
      match d !! key with
      | Some x => Ok x
      | None => Raise (KeyError key)
      end
  | _ => Raise TypeError
  end.

(** ** validate_flower_toml_fields *)

Definition msg_missing_project : string := "Missing [project] section".
Definition msg_missing_flower : string := "Missing [flower] section".
Definition msg_missing_components : string :=
  "Missing [flower.components] section".
Definition msg_property_missing (key section : string) : string :=
  "Property " ++ dq ++ key ++ dq ++ " missing in " ++ section.
Definition msg_recommended_missing (key section : string) : string :=
  "Recommended property " ++ dq ++ key ++ dq ++ " missing in " ++ section.

(** [if key not in container: log.append(msg)]. *)
Definition append_if_missing (key : string) (container : value)
    (msg : string) (log : list string) : result (list string) :=
  let* present := py_in key container in
  Ok (if present then log else (log ++ [msg])%list).

Definition validate_flower_toml_fields (config : dict)
    : result (bool * list string * list string) :=
  let errors : list string := [] in
  let warnings : list string := [] in
  let* '(errors, warnings) :=
    match config !! "project" with
    | None => Ok ((errors ++ [msg_missing_project])%list, warnings)
    | Some project =>
        let* errors := append_if_missing "name" project
          (msg_property_missing "name" "[project]") errors in
        let* errors := append_if_missing "version" project
          (msg_property_missing "version" "[project]") errors in
        let* warnings := append_if_missing "description" project
          (msg_recommended_missing "description" "[project]") warnings in
        let* warnings := append_if_missing "license" project
          (msg_recommended_missing "license" "[project]") warnings in
        let* warnings := append_if_missing "authors" project
          (msg_recommended_missing "authors" "[project]") warnings in
        Ok (errors, warnings)
    end in
  let* errors :=
    match config !! "flower" with
    | None => Ok (errors ++ [msg_missing_flower])%list
    | Some flower =>
        let* has_components := py_in "components" flower in
        if negb has_components then
          Ok (errors ++ [msg_missing_components])%list
        else
          let* components := py_getitem flower "components" in
          let* errors := append_if_missing "serverapp" components
            (msg_property_missing "serverapp" "[flower.components]") errors in
          let* errors := append_if_missing "clientapp" components
            (msg_property_missing "clientapp" "[flower.components]") errors in
          Ok errors
    end in
  Ok (Nat.eqb (List.length errors) 0, errors, warnings).

(** The warnings owed by a [project] table: one for each recommended
    property it lacks, in the order the validator tests them. *)
Definition recommended_warnings (project : dict) : list string :=
  flat_map
    (λ key, if bool_decide (is_Some (project !! key)) then []
            else [msg_recommended_missing key "[project]"])
    ["description"; "license"; "authors"].

(** ** The host's module system *)

(** [importlib.import_module] and [getattr] are services of the running
    interpreter.  Both may run arbitrary code, so both may change the
    host state and may raise any exception. *)
Record Host : Type := {
  host_obj : Type;
  host_state : Type;
  import_module : string → host_state → result host_obj * host_state;
  getattr : host_obj → string → host_state → result host_obj * host_state
}.

(** Computations that use the host: state passing with exceptions. *)
Definition hostM (H : Host) (A : Type) : Type :=
  host_state H → result A * host_state H.

Definition hret {H : Host} {A} (a : A) : hostM H A :=
  λ s, (Ok a, s).

Definition hbind {H : Host} {A B} (m : hostM H A) (f : A → hostM H B)
    : hostM H B :=
  λ s, match m s with
       | (Ok a, s') => f a s'
       | (Raise e, s') => (Raise e, s')
       end.

Notation "'let!' x ':=' m 'in' k" := (hbind m (λ x, k))
  (at level 10, x name, m at level 100, k at level 200, only parsing).
Notation "'let!' ' x ':=' m 'in' k" := (hbind m (λ x, k))
  (at level 10, x pattern, m at level 100, k at level 200, only parsing).

Definition lift_result {H : Host} {A} (r : result A) : hostM H A :=
  λ s, (r, s).

(** ** validate_object_reference *)

(** [for attribute_str in names: attribute = getattr(attribute, attribute_str)]. *)
Fixpoint load_attribute (H : Host) (attribute : host_obj H)
    (names : list string) : hostM H (host_obj H) :=
  match names with
  | [] => hret attribute
  | attribute_str :: names' =>
      let! attribute' := getattr H attribute attribute_str in
      load_attribute H attribute' names'
  end.

Definition validate_object_reference (H : Host) (ref : string)
    : hostM H (bool * option string) :=
  let '(module_str, _, attributes_str) := str_partition ":" ref in
  if str_is_empty module_str then
    hret (false, Some ("Missing module in " ++ ref))
  else if str_is_empty attributes_str then
    hret (false, Some ("Missing attribute in " ++ ref))
  else λ s,
    match import_module H module_str s with
    | (Raise ModuleNotFoundError, s1) =>
        (Ok (false, Some ("Unable to load module " ++ module_str)), s1)
    | (Raise e, s1) => (Raise e, s1)
    | (Ok module, s1) =>
        match load_attribute H module (str_split "." attributes_str) s1 with
        | (Raise AttributeError, s2) =>
            (Ok (false,
                 Some ("Unable to load attribute " ++ attributes_str
                       ++ " from module " ++ module_str)), s2)
        | (Raise e, s2) => (Raise e, s2)
        | (Ok _, s2) => (Ok (true, None), s2)
        end
    end.

(** ** validate_flower_toml *)

(** [config["flower"]["components"][name]]. *)
Definition component_ref (config : dict) (name : string) : result value :=
  let* flower := py_getitem (VDict config) "flower" in
  let* components := py_getitem flower "components" in
  py_getitem components name.

(** The call [validate_object_reference(v)] on a dynamically typed
    argument: [ref.partition] exists on strings only. *)
Definition call_validate_object_reference (H : Host) (v : value)
    : hostM H (bool * option string) :=
  match v with
  | VStr ref => validate_object_reference H ref
  | _ => lift_result (Raise AttributeError)
  end.

Definition validate_flower_toml (H : Host) (config : dict)
    : hostM H (bool * list string * list string) :=
  let! '(is_valid, errors, warnings) :=
    lift_result (validate_flower_toml_fields config) in
  if negb is_valid then hret (false, errors, warnings)
  else
    let! serverapp := lift_result (component_ref config "serverapp") in
    let! '(is_valid, reason) := call_validate_object_reference H serverapp in
    match is_valid, reason with
    | false, Some reason => hret (false, [reason], [])
    | _, _ =>
        let! clientapp := lift_result (component_ref config "clientapp") in
        let! '(is_valid, reason) :=
          call_validate_object_reference H clientapp in
        match is_valid, reason with
        | false, Some reason => hret (false, [reason], [])
        | _, _ => hret (true, [], [])
        end
    end.

(** ** A small concrete host *)

(** One importable module, [os], with attributes [getcwd] and [path], the
    latter with attribute [join].  Objects are named by their dotted path;
    the state is the log of the calls made to the host so far.  As in
    CPython, a module name that starts with a dot is a relative import,
    for which [importlib.import_module] called without a package raises
    [TypeError]; any other unknown name raises [ModuleNotFoundError]. *)
Definition os_attrs : list (string * string) :=
  [("os", "getcwd"); ("os", "path"); ("os.path", "join")].

Definition os_host : Host := {|
  host_obj := string;
  host_state := list string;
  import_module name log :=
    let log := (log ++ [("import " ++ name)%string])%list in
    if String.prefix "." name then (Raise TypeError, log)
    else if String.eqb name "os" then (Ok "os", log)
    else (Raise ModuleNotFoundError, log);
  getattr o name log :=
    let log := (log ++ [("getattr " ++ o ++ " " ++ name)%string])%list in
    if existsb (λ p, String.eqb (fst p) o && String.eqb (snd p) name) os_attrs
    then (Ok (o ++ "." ++ name), log)
    else (Raise AttributeError, log)
|}.

(** ** Sample configurations *)

Definition sample_components (serverapp clientapp : string) : dict :=
  {[ "serverapp" := VStr serverapp; "clientapp" := VStr clientapp ]}.

Definition sample_project : dict :=
  {[ "name" := VStr "x"; "version" := VStr "1.0" ]}.

Definition sample_config (serverapp clientapp : string) : dict :=
  {[ "project" := VDict sample_project;
     "flower" := VDict {[ "components" :=
                            VDict (sample_components serverapp clientapp) ]} ]}.

(** [components] given as one string that names both applications,
    where a table is meant. *)
Definition string_components_config : dict :=
  {[ "project" := VDict sample_project;
     "flower" := VDict {[ "components" := VStr "serverapp clientapp" ]} ]}.

(** ** Induction over values *)

Fixpoint value_size (v : value) : nat :=
  match v with
  | VList l => S (foldr (λ v' n, value_size v' + n) 0 l)
  | VDict d => S (map_fold (λ _ v' n, value_size v' + n) 0 d)
  | _ => 1
  end.


(** ** Paths into a configuration *)

(** [isinstance(v, dict)]. *)
Definition is_dict (v : value) : bool :=
  match v with
  | VDict _ => true
  | _ => false
  end.

(** [v[k1][k2]...[kn]], when every step is a key lookup in a dict. *)
Fixpoint lookup_path (path : list string) (v : value) : option value :=
  match path with
  | [] => Some v
  | key :: path' =>
      match v with
      | VDict d =>
          match d !! key with
          | Some v' => lookup_path path' v'
          | None => None
          end
      | _ => None
      end
  end.

(** ** load_flower_toml *)

(** What [load_flower_toml] asks of its surroundings: the working
    directory ([os.getcwd], which raises when the directory is gone), the
    platform's [os.path.join], [os.path.isfile] (which answers [False]
    rather than raise), reading a whole file as UTF-8 text
    ([open(path, encoding="utf-8")] and [read], the [with] block closing
    the file on every exit), and the parser [tomli.loads]. *)
Record Environment : Type := {
  getcwd : result string;
  path_join : string → string → string;
  isfile : string → bool;
  read_text : string → result string;
  tomli_loads : string → result dict
}.

Definition load_flower_toml (E : Environment) (path : option string)
    : result (option dict) :=
  let* toml_path :=
    match path with
    | None =>
        let* cur_dir := getcwd E in
        Ok (path_join E cur_dir "flower.toml")
    | Some path => Ok path
    end in
  if negb (isfile E toml_path) then Ok None
  else
    let* text := read_text E toml_path in
    let* data := tomli_loads E text in
    Ok (Some data).

(** The path [load_flower_toml] reads: the path given or, without one,
    [flower.toml] in the working directory. *)
Definition toml_path_of (E : Environment) (path : option string)
    : result string :=
  match path with
  | None =>
      let* cur_dir := getcwd E in
      Ok (path_join E cur_dir "flower.toml")
  | Some path => Ok path
  end.

(** A directory [/app] that holds one file, [flower.toml], whose text
    the parser accepts. *)
Definition app_environment : Environment := {|
  getcwd := Ok "/app";
  path_join a b := a ++ "/" ++ b;
  isfile p := String.eqb p "/app/flower.toml";
  read_text p :=
    if String.eqb p "/app/flower.toml" then Ok "the text of flower.toml"
    else Raise (OtherError "FileNotFoundError");
  tomli_loads text :=
    if String.eqb text "the text of flower.toml"
    then Ok (sample_config "os:getcwd" "os:path.join")
    else Raise (OtherError "TOMLDecodeError")
|}.

(** ** Sections as tables *)

(** A section is absent or a table. *)
Definition absent_or_table (v : option value) : bool :=
  match v with
  | None | Some (VDict _) => true
  | Some _ => false
  end.

(** [project], [flower] and [flower.components] are tables wherever they
    are present: what TOML's [[project]] and [[flower.components]]
    headers give. *)
Definition sections_are_tables (config : dict) : bool :=
  absent_or_table (config !! "project") &&
  match config !! "flower" with
  | None => true
  | Some (VDict fl) => absent_or_table (fl !! "components")
  | Some _ => false
  end.

(** The four required properties are there. *)
Definition has_required_properties (config : dict) : bool :=
  match config !! "project", config !! "flower" with
  | Some (VDict project), Some (VDict fl) =>
      match fl !! "components" with
      | Some (VDict components) =>
          bool_decide (is_Some (project !! "name")) &&
          bool_decide (is_Some (project !! "version")) &&
          bool_decide (is_Some (components !! "serverapp")) &&
          bool_decide (is_Some (components !! "clientapp"))
      | _ => false
      end
  | _, _ => false
  end.

(** Every message the validator can put in [errors], and every message
    it can put in [warnings], in the order of the tests. *)
Definition all_errors : list string :=
  [msg_missing_project;
   msg_property_missing "name" "[project]";
   msg_property_missing "version" "[project]";
   msg_missing_flower;
   msg_missing_components;
   msg_property_missing "serverapp" "[flower.components]";
   msg_property_missing "clientapp" "[flower.components]"].

Definition all_warnings : list string :=
  [msg_recommended_missing "description" "[project]";
   msg_recommended_missing "license" "[project]";
   msg_recommended_missing "authors" "[project]"].

(** [isinstance(v, (int, float, bool))]: the values on which [in] raises. *)
Definition is_scalar (v : value) : bool :=
  match v with
  | VInt _ | VBool _ => true
  | _ => false
  end.

(** ** apply_defaults in place *)

(** [apply_defaults] mutates the dict it is given and stores in it
    references to the dicts of the defaults ([config[key] = defaults[key]]
    copies no dict).  To follow that, dicts live in a store and are held
    by reference; everything else (strings, numbers, booleans, and lists
    with all they contain) is never looked into nor changed by
    [apply_defaults] and is held as plain data. *)
Definition loc : Type := positive.

Inductive pyval : Type :=
  | PData (v : value)
  | PRef (l : loc).

Abbreviation pydict := (gmap string pyval).
Abbreviation store := (gmap loc (gmap string pyval)).

Definition RecursionError : exn := OtherError "RecursionError".
Definition RuntimeError : exn := OtherError "RuntimeError".

(** Follow a reference.  In Python every reference leads to an object; a
    store in which one does not is answered with an error. *)
Definition deref (h : store) (l : loc) : result pydict :=
  match h !! l with
  | Some o => Ok o
  | None => Raise (OtherError "dangling reference")
  end.

(** [o[key]] on a dict object. *)
Definition py_dict_getitem (o : pydict) (key : string) : result pyval :=
  match o !! key with
  | Some x => Ok x
  | None => Raise (KeyError key)
  end.

(** [next(iterator)] on the iterator of [for key in defaults]: the dict
    must still have the size it had when the loop started, or
    [RuntimeError: dictionary changed size during iteration]. *)
Definition check_unchanged_size (h : store) (defaults : loc) (n : nat)
    : result unit :=
  let* d := deref h defaults in
  if Nat.eqb (size d) n then Ok tt else Raise RuntimeError.

Module InPlace.

(** One turn of the loop, [rec] standing for the recursive call:
    [[
      if key in config:
          if isinstance(config[key], dict) and isinstance(defaults[key], dict):
              apply_defaults(config[key], defaults[key])
      else:
          config[key] = defaults[key]
    ]] *)
Definition apply_defaults_iter (rec : loc → loc → store → result store)
    (config defaults : loc) (n : nat) (key : string) (acc : result store)
    : result store :=
  let* h := acc in
  let* _ := check_unchanged_size h defaults n in
  let* c := deref h config in
  let* d := deref h defaults in
  match c !! key with
  | Some cv =>
      let* dv := py_dict_getitem d key in
      match cv, dv with
      | PRef c', PRef d' => rec c' d' h
      | _, _ => Ok h
      end
  | None =>
      let* dv := py_dict_getitem d key in
      Ok (<[config := <[key := dv]> c]> h)
  end.

(** [apply_defaults(config, defaults)], both arguments being dicts given
    by reference.  The function returns [config] itself, so what is
    returned here is the store in which [config] has been updated.
    [depth] is what is left of the interpreter's recursion limit.  The
    keys are visited in the order of [map_fold], which is the insertion
    order of some Python dict with these entries. *)
Fixpoint apply_defaults (depth : nat) (config defaults : loc) (h : store)
    : result store :=
  match depth with
  | O => Raise RecursionError
  | S depth =>
      let* keys := deref h defaults in
      let* h :=
        map_fold (λ key _, apply_defaults_iter (apply_defaults depth)
                             config defaults (size keys) key)
                 (Ok h) keys in
      let* _ := check_unchanged_size h defaults (size keys) in
      Ok h
  end.

End InPlace.

(** ** Trees in the store *)

(** A layout says where a tree sits in the store: the address of each of
    its dicts, key by key. *)
#[local] Unset Elimination Schemes.
Inductive ltree : Type :=
  | LData (v : value)
  | LNode (l : loc) (children : gmap string ltree).
#[local] Set Elimination Schemes.

(** What a dict holds under a key whose subtree has this layout. *)
Definition lval (t : ltree) : pyval :=
  match t with
  | LData v => PData v
  | LNode l _ => PRef l
  end.

(** The tree of values a layout stands for. *)
Fixpoint erase (t : ltree) : value :=
  match t with
  | LData v => v
  | LNode _ children => VDict (erase <$> children)
  end.

Fixpoint ltree_size (t : ltree) : nat :=
  match t with
  | LData _ => 1
  | LNode _ children => S (map_fold (λ _ t' n, ltree_size t' + n) 0 children)
  end.

(** Build a tree of values in the store, each dict a new object: what
    [tomli.loads] and a dict literal do.  The layout of the new tree is
    returned with the extended store. *)
Fixpoint load (v : value) (h : store) : ltree * store :=
  match v with
  | VDict d =>
      let '(children, h) :=
        map_fold (λ key v' (acc : gmap string ltree * store),
                    let '(t, h) := load v' acc.2 in
                    (<[key := t]> acc.1, h)) (∅, h) d in
      let l := fresh (dom h) in
      (LNode l children, <[l := lval <$> children]> h)
  | _ => (LData v, h)
  end.

(** The layout after [apply_defaults]: the dicts of the configuration
    stay where they are, and a key copied from the defaults leads to the
    defaults' own subtree. *)
Fixpoint lmerge (tc td : ltree) {struct tc} : ltree :=
  match tc, td with
  | LNode l chc, LNode _ chd =>
      LNode l (union_with (λ tc' td', Some (lmerge tc' td')) chc chd)
  | _, _ => tc
  end.

(** The children of a merged layout. *)
Abbreviation lmerge_children chc chd :=
  (union_with (λ tc' td', Some (lmerge tc' td')) chc chd).

(** [l] is the address of a dict of the tree. *)
Inductive in_tree (l : loc) : ltree → Prop :=
  | in_tree_root children : in_tree l (LNode l children)
  | in_tree_child l0 children key t :
      children !! key = Some t → in_tree l t → in_tree l (LNode l0 children).

(** The store holds the tree at the addresses the layout gives. *)
Inductive holds (h : store) : ltree → Prop :=
  | holds_data v : is_dict v = false → holds h (LData v)
  | holds_node l children :
      h !! l = Some (lval <$> children) →
      (∀ key t, children !! key = Some t → holds h t) →
      holds h (LNode l children).

(** No dict of the tree is reached twice. *)
Inductive proper : ltree → Prop :=
  | proper_data v : proper (LData v)
  | proper_node l children :
      (∀ key t, children !! key = Some t → proper t) →
      (∀ key t, children !! key = Some t → ¬ in_tree l t) →
      (∀ key1 key2 t1 t2 l',
         key1 ≠ key2 → children !! key1 = Some t1 → children !! key2 = Some t2 →
         in_tree l' t1 → ¬ in_tree l' t2) →
      proper (LNode l children).

(** Every key of the second tree is a key of the first, at every pair of
    dicts the recursion visits. *)
Inductive covers : ltree → ltree → Prop :=
  | covers_data_l v td : covers (LData v) td
  | covers_data_r t v : covers t (LData v)
  | covers_node l children ld children_d :
      (∀ key, is_Some (children_d !! key) → is_Some (children !! key)) →
      (∀ key t td, children !! key = Some t → children_d !! key = Some td →
         covers t td) →
      covers (LNode l children) (LNode ld children_d).

(** Reading the store from [pv] gives the tree of values [v]. *)
Definition reads (h : store) (pv : pyval) (v : value) : Prop :=
  ∃ t, lval t = pv ∧ holds h t ∧ erase t = v.

(** Every dict of [h] is still there in [h'], with every entry it had,
    and no dict is new. *)
Definition store_grows (h h' : store) : Prop :=
  ∀ l, match h !! l with
       | Some o => ∃ o', h' !! l = Some o' ∧ o ⊆ o'
       | None => h' !! l = None
       end.

(** ** Sample trees for apply_defaults *)

Definition nested_config : dict := {[ "a" := VDict {[ "x" := VInt 1 ]} ]}.
Definition nested_defaults : dict :=
  {[ "a" := VDict {[ "x" := VInt 2; "y" := VInt 3 ]} ]}.

(** [config = {"a": 1}] at address 1 and [defaults = {"b": 3}] at
    address 2. *)
Definition flat_store : store :=
  {[ 1%positive := {[ "a" := PData (VInt 1) ]};
     2%positive := {[ "b" := PData (VInt 3) ]} ]}.

(** Defaults that give [project] a license. *)
Definition license_defaults : dict :=
  {[ "project" := VDict {[ "license" := VStr "Apache-2.0" ]} ]}.

(** ** Proof automation *)

(** Case analysis on every membership test of the goal. *)
Ltac destruct_is_Some_tests :=
  repeat match goal with
         | |- context [@bool_decide (is_Some ?x) _] =>
             destruct x;
             [rewrite !(bool_decide_eq_true_2 (is_Some (Some _))) by eauto
             |rewrite !(bool_decide_eq_false_2 (is_Some None))
                by (by intros [? ?])]
         end.

(** * Properties *)

Lemma value_size_list_elem (l : list value) (v : value) :
  v ∈ l → value_size v < value_size (VList l).
Proof.
  simpl. induction 1 as [v l|v w l _ IH]; simpl; lia.
Qed.

Lemma value_size_dict_elem (d : dict) (k : string) (v : value) :
  d !! k = Some v → value_size v < value_size (VDict d).
Proof.
  simpl. revert k v.
  refine (map_fold_weak_ind
    (λ n (m : dict), ∀ k v, m !! k = Some v → value_size v < S n) _ _ _ _ d).
  - intros k v Hk. by rewrite lookup_empty in Hk.
  - intros i x m n Hi IH k v Hk.
    destruct (decide (i = k)) as [->|Hne].
    + rewrite lookup_insert_eq in Hk. injection Hk as ->. lia.
    + rewrite lookup_insert_ne in Hk by done. specialize (IH k v Hk). lia.
Qed.

Lemma value_ind (P : value → Prop) :
  (∀ s, P (VStr s)) →
  (∀ n, P (VInt n)) →
  (∀ b, P (VBool b)) →
  (∀ l, Forall P l → P (VList l)) →
  (∀ d, map_Forall (λ _, P) d → P (VDict d)) →
  ∀ v, P v.
Proof.
  intros Hs Hn Hb Hl Hd v.
  remember (value_size v) as n eqn:Hsize.
  revert v Hsize.
  induction n as [n IH] using lt_wf_ind; intros v ->.
  destruct v as [s|z|b|l|d]; auto.
  - apply Hl, Forall_forall. intros w Hw.
    by eapply IH; [apply value_size_list_elem|].
  - apply Hd. intros k w Hk.
    by eapply IH; [eapply value_size_dict_elem|].
Qed.

(** ** apply_defaults: what is found under each key *)

Section apply_defaults_facts.
Implicit Types (config defaults c d : dict) (key k : string).

(** The loop touches each key of [defaults] once, and only that key. *)
Lemma apply_defaults_lookup config defaults key :
  apply_defaults config defaults !! key =
    match config !! key, defaults !! key with
    | Some cv, Some dv => Some (apply_defaults_nested cv dv)
    | Some cv, None => Some cv
    | None, dv => dv
    end.
Proof.
  unfold apply_defaults.
  refine (map_fold_weak_ind
    (λ (r : dict) (m : dict),
       r !! key = match config !! key, m !! key with
                  | Some cv, Some dv => Some (apply_defaults_nested cv dv)
                  | Some cv, None => Some cv
                  | None, dv => dv
                  end) _ _ _ _ defaults).
  - rewrite lookup_empty. by destruct (config !! key).
  - intros i x m r Hi IH. unfold apply_defaults_step.
    destruct (decide (i = key)) as [->|Hne].
    + rewrite IH, Hi, lookup_insert_eq.
      destruct (config !! key) as [cv|]; by rewrite lookup_insert_eq.
    + rewrite (lookup_insert_ne m) by done.
      destruct (r !! i); by rewrite lookup_insert_ne.
Qed.

Lemma apply_defaults_nested_dict c d :
  apply_defaults_nested (VDict c) (VDict d) = VDict (apply_defaults c d).
Proof. reflexivity. Qed.

(** Applying a tree of defaults to itself changes nothing. *)
Lemma apply_defaults_nested_self (v : value) :
  apply_defaults_nested v v = v.
Proof.
  induction v as [s|n|b|l _|d IH] using value_ind; try reflexivity.
  rewrite apply_defaults_nested_dict. f_equal.
  apply map_eq. intros k. rewrite apply_defaults_lookup.
  destruct (d !! k) as [v|] eqn:Hk; [|done].
  f_equal. by apply (IH k).
Qed.

Lemma apply_defaults_nested_idemp (cv dv : value) :
  apply_defaults_nested (apply_defaults_nested cv dv) dv =
  apply_defaults_nested cv dv.
Proof.
  revert cv.
  induction dv as [s|n|b|l _|d IH] using value_ind; intros cv;
    try (by destruct cv).
  destruct cv as [s|n|b|l|c]; try reflexivity.
  rewrite !apply_defaults_nested_dict. f_equal.
  apply map_eq. intros k. rewrite !apply_defaults_lookup.
  destruct (c !! k) as [cv|], (d !! k) as [dv|] eqn:Hk; try done.
  - f_equal. by apply (IH k).
  - f_equal. apply apply_defaults_nested_self.
Qed.
End apply_defaults_facts.

(** ** apply_defaults: explicit values survive at any depth *)

Lemma apply_defaults_nested_keeps_path (path : list string) (cv dv v : value) :
  lookup_path path cv = Some v →
  is_dict v = false →
  lookup_path path (apply_defaults_nested cv dv) = Some v.
Proof.
  revert cv dv.
  induction path as [|key path IH]; intros cv dv Hpath Hleaf; simpl in *.
  - injection Hpath as ->. by destruct v, dv.
  - destruct cv as [| | | |c]; try discriminate.
    destruct dv as [| | | |d]; try done.
    rewrite apply_defaults_nested_dict. simpl.
    rewrite apply_defaults_lookup.
    destruct (c !! key) as [cv'|]; [|discriminate].
    destruct (d !! key) as [dv'|]; [by apply IH|done].
Qed.

(** C7. For every configuration and defaults tree: a key of the defaults
    that the configuration lacks is copied in with its default value; a
    key under which both hold a mapping is merged by the same rule, and
    the merge keeps every key the nested configuration already had; a key
    under which the configuration holds anything else, or the defaults do
    not hold a mapping, keeps its value; and an explicit non-mapping value
    anywhere in the configuration is still there afterwards. *)
Theorem apply_defaults_fills_merges_keeps (config defaults : dict) (key : string) :
  (∀ dv, config !! key = None → defaults !! key = Some dv →
     apply_defaults config defaults !! key = Some dv) ∧
  (∀ c d, config !! key = Some (VDict c) → defaults !! key = Some (VDict d) →
     apply_defaults config defaults !! key = Some (VDict (apply_defaults c d)) ∧
     dom c ⊆ dom (apply_defaults c d)) ∧
  (∀ cv, config !! key = Some cv →
     (is_dict cv = false ∨ ∀ d, defaults !! key ≠ Some (VDict d)) →
     apply_defaults config defaults !! key = Some cv) ∧
  (∀ path v, lookup_path path (VDict config) = Some v → is_dict v = false →
     lookup_path path (VDict (apply_defaults config defaults)) = Some v).
Proof.
  split; [|split; [|split]].
  - intros dv Hc Hd. by rewrite apply_defaults_lookup, Hc.
  - intros c d Hc Hd. split.
    + by rewrite apply_defaults_lookup, Hc, Hd.
    + intros k [v Hk]%elem_of_dom. apply elem_of_dom.
      rewrite apply_defaults_lookup, Hk. destruct (d !! k); eauto.
  - intros cv Hc Hkeep. rewrite apply_defaults_lookup, Hc.
    destruct (defaults !! key) as [dv|] eqn:Hd; [|done].
    f_equal. destruct Hkeep as [Hcv|Hdv].
    + by destruct cv, dv.
    + destruct dv as [| | | |d]; try by destruct cv.
      by destruct (Hdv d).
  - intros path v Hpath Hleaf.
    rewrite <- apply_defaults_nested_dict.
    by apply apply_defaults_nested_keeps_path.
Qed.

(** C8. Applying the same defaults a second time changes nothing. *)
Theorem apply_defaults_idempotent (config defaults : dict) :
  apply_defaults (apply_defaults config defaults) defaults =
  apply_defaults config defaults.
Proof.
  pose proof (apply_defaults_nested_idemp (VDict config) (VDict defaults)) as H.
  rewrite !apply_defaults_nested_dict in H. by injection H.
Qed.

(** ** Results: inversion of sequencing *)

Lemma rbind_Ok {A B} (m : result A) (f : A → result B) (b : B) :
  rbind m f = Ok b → ∃ a, m = Ok a ∧ f a = Ok b.
Proof. destruct m as [a|e]; simpl; [eauto|discriminate]. Qed.

Lemma append_if_missing_Ok key container msg log log' :
  append_if_missing key container msg log = Ok log' →
  ∃ present, py_in key container = Ok present ∧
             log' = if present then log else (log ++ [msg])%list.
Proof.
  unfold append_if_missing. intros (present & Hin & Hret)%rbind_Ok.
  exists present. split; [done|]. by injection Hret.
Qed.

Lemma append_if_missing_nil key container msg log :
  append_if_missing key container msg log = Ok [] →
  py_in key container = Ok true ∧ log = [].
Proof.
  intros ([|] & Hin & Hlog)%append_if_missing_Ok; [done|].
  by destruct log.
Qed.

(** ** validate_flower_toml_fields *)

(** The flag is computed from the error list alone. *)
Lemma validate_flower_toml_fields_flag_eq config is_valid errors warnings :
  validate_flower_toml_fields config = Ok (is_valid, errors, warnings) →
  is_valid = Nat.eqb (List.length errors) 0.
Proof.
  unfold validate_flower_toml_fields.
  intros ([errors0 warnings0] & _ & H)%rbind_Ok.
  apply rbind_Ok in H as (errors1 & _ & H).
  by injection H as <- <- <-.
Qed.

(** C4. Whenever the structural validator returns, its flag is true
    exactly when its error list is empty; the warning list plays no part
    (the flag is [len(errors) == 0]). *)
Theorem validate_flower_toml_fields_valid_iff_no_errors
    config is_valid errors warnings :
  validate_flower_toml_fields config = Ok (is_valid, errors, warnings) →
  (is_valid = true ↔ errors = []) ∧
  is_valid = Nat.eqb (List.length errors) 0.
Proof.
  intros Hret. apply validate_flower_toml_fields_flag_eq in Hret as ->.
  split; [|done]. destruct errors; simpl; split; done.
Qed.

(** What a valid verdict says about the configuration: every test of the
    validator that guards an [errors.append] came out true. *)
Lemma validate_flower_toml_fields_valid_inv config errors warnings :
  validate_flower_toml_fields config = Ok (true, errors, warnings) →
  errors = [] ∧
  ∃ project fl components,
    config !! "project" = Some project ∧
    py_in "name" project = Ok true ∧
    py_in "version" project = Ok true ∧
    config !! "flower" = Some (VDict fl) ∧
    fl !! "components" = Some components ∧
    py_in "serverapp" components = Ok true ∧
    py_in "clientapp" components = Ok true.
Proof.
  intros Hret.
  pose proof (validate_flower_toml_fields_flag_eq _ _ _ _ Hret) as Hflag.
  destruct errors; [|discriminate]. split; [done|].
  unfold validate_flower_toml_fields in Hret.
  apply rbind_Ok in Hret as ([errors0 warnings0] & Hproject & Hret).
  apply rbind_Ok in Hret as (errors1 & Hflower & Hret).
  injection Hret as Hlen -> ->.
  destruct (config !! "flower") as [flower|]; [|by destruct errors0].
  apply rbind_Ok in Hflower as (has_components & Hcomp & Hflower).
  destruct has_components; simpl in Hflower; [|by destruct errors0].
  apply rbind_Ok in Hflower as (components & Hget & Hflower).
  apply rbind_Ok in Hflower as (errors2 & Hserver & Hflower).
  apply rbind_Ok in Hflower as (errors3 & Hclient & Hflower).
  injection Hflower as ->.
  apply append_if_missing_nil in Hclient as [Hclient ->].
  apply append_if_missing_nil in Hserver as [Hserver ->].
  destruct (config !! "project") as [project|]; [|discriminate].
  apply rbind_Ok in Hproject as (errors4 & Hname & Hproject).
  apply rbind_Ok in Hproject as (errors5 & Hversion & Hproject).
  apply rbind_Ok in Hproject as (w1 & _ & Hproject).
  apply rbind_Ok in Hproject as (w2 & _ & Hproject).
  apply rbind_Ok in Hproject as (w3 & _ & Hproject).
  injection Hproject as -> ->.
  apply append_if_missing_nil in Hversion as [Hversion ->].
  apply append_if_missing_nil in Hname as [Hname _].
  destruct flower as [| | | |fl]; try discriminate.
  simpl in Hget. destruct (fl !! "components") as [c|] eqn:Hfl; [|discriminate].
  injection Hget as ->.
  by exists project, fl, components.
Qed.

Lemma component_ref_unfold config fl components name :
  config !! "flower" = Some (VDict fl) →
  fl !! "components" = Some components →
  component_ref config name = py_getitem components name.
Proof.
  intros Hflower Hcomponents. unfold component_ref. simpl.
  rewrite Hflower. simpl. by rewrite Hcomponents.
Qed.

Lemma py_in_getitem_no_KeyError name components key :
  py_in name components = Ok true →
  py_getitem components name ≠ Raise (KeyError key).
Proof.
  destruct components as [| | | |d]; simpl; try done.
  intros [= Hin]. apply bool_decide_eq_true in Hin as [v ->]. done.
Qed.

(** C9. When the structural validator reports valid, [flower] is a
    mapping that has the key [components], and [serverapp] and
    [clientapp] both pass the membership test on the value found there,
    so neither of the two unguarded lookups of [validate_flower_toml]
    can raise [KeyError].  When that value is a mapping, both keys are
    present in it and both lookups return what is stored under them;
    when it is not a mapping (a string or a list that contains the two
    names passes the membership tests too), both lookups raise
    [TypeError]. *)
Theorem valid_fields_component_lookups_no_KeyError config errors warnings :
  validate_flower_toml_fields config = Ok (true, errors, warnings) →
  ∃ fl components,
    config !! "flower" = Some (VDict fl) ∧
    fl !! "components" = Some components ∧
    py_in "serverapp" components = Ok true ∧
    py_in "clientapp" components = Ok true ∧
    (∀ key, component_ref config "serverapp" ≠ Raise (KeyError key)) ∧
    (∀ key, component_ref config "clientapp" ≠ Raise (KeyError key)) ∧
    (∀ d, components = VDict d →
       ∃ serverapp clientapp,
         d !! "serverapp" = Some serverapp ∧
         d !! "clientapp" = Some clientapp ∧
         component_ref config "serverapp" = Ok serverapp ∧
         component_ref config "clientapp" = Ok clientapp) ∧
    ((∀ d, components ≠ VDict d) →
       component_ref config "serverapp" = Raise TypeError ∧
       component_ref config "clientapp" = Raise TypeError).
Proof.
  intros (_ & project & fl & components & _ & _ & _ & Hflower & Hcomponents
            & Hserver & Hclient)%validate_flower_toml_fields_valid_inv.
  exists fl, components.
  rewrite !(component_ref_unfold _ _ _ _ Hflower Hcomponents).
  do 4 (split; [done|]).
  do 2 (split; [intros key; by apply py_in_getitem_no_KeyError|]).
  split.
  - intros d ->. simpl in *.
    injection Hserver as [s Hs]%bool_decide_eq_true.
    injection Hclient as [c Hc]%bool_decide_eq_true.
    exists s, c. by rewrite Hs, Hc.
  - intros Hnot. destruct components as [| | | |d]; try done.
    by destruct (Hnot d).
Qed.

(** ** validate_flower_toml *)

(** C3. When the structural validator reports invalid,
    [validate_flower_toml] returns that same triple, and it does so
    without one call to the host: the host state is the one it started
    from, whatever the host is. *)
Theorem validate_flower_toml_structural_failure
    (H : Host) config errors warnings (s : host_state H) :
  validate_flower_toml_fields config = Ok (false, errors, warnings) →
  validate_flower_toml H config s = (Ok (false, errors, warnings), s).
Proof.
  intros Hfields. unfold validate_flower_toml, hbind, lift_result.
  by rewrite Hfields.
Qed.

(** ** Strings: partition *)

Lemma str_partition_spec (sep : ascii) (s : string) :
  ∀ before mid after,
    str_partition sep s = (before, mid, after) →
    s = before ++ mid ++ after ∧
    str_has_char sep before = false ∧
    (if str_has_char sep s then mid = String sep EmptyString
     else mid = EmptyString ∧ after = EmptyString).
Proof.
  induction s as [|c s IH]; simpl; intros before mid after Hpart.
  - by injection Hpart as <- <- <-.
  - destruct (Ascii.eqb c sep) eqn:Hc; simpl.
    + apply Ascii.eqb_eq in Hc as ->. by injection Hpart as <- <- <-.
    + destruct (str_partition sep s) as [[b m] a].
      injection Hpart as <- <- <-.
      destruct (IH b m a eq_refl) as (-> & Hb & Hmid).
      simpl. by rewrite Hc.
Qed.

Lemma str_partition_no_sep (sep : ascii) (s : string) :
  str_has_char sep s = false →
  str_partition sep s = (s, EmptyString, EmptyString).
Proof.
  induction s as [|c s IH]; simpl; [done|].
  intros [Hc Hs]%orb_false_elim. rewrite Hc. by rewrite (IH Hs).
Qed.

Lemma str_is_empty_true (s : string) :
  str_is_empty s = true ↔ s = EmptyString.
Proof. by destruct s. Qed.

Lemma str_is_empty_false (s : string) :
  str_is_empty s = false ↔ s ≠ EmptyString.
Proof. by destruct s. Qed.

(** ** validate_object_reference *)

Section validate_object_reference_facts.
Context (H : Host).
Implicit Types (ref module_str attributes_str : string) (s : host_state H).

(** C6. The reference is cut at its first colon; an empty module part
    is reported first, an empty attribute part next, each with the
    whole reference in the message and without touching the host. *)
Theorem validate_object_reference_missing_parts
    ref module_str sep attributes_str s :
  str_partition ":" ref = (module_str, sep, attributes_str) →
  ref = module_str ++ sep ++ attributes_str ∧
  str_has_char ":" module_str = false ∧
  (if str_has_char ":" ref then sep = ":"
   else sep = EmptyString ∧ attributes_str = EmptyString) ∧
  (module_str = EmptyString →
     validate_object_reference H ref s =
       (Ok (false, Some ("Missing module in " ++ ref)), s)) ∧
  (module_str ≠ EmptyString → attributes_str = EmptyString →
     validate_object_reference H ref s =
       (Ok (false, Some ("Missing attribute in " ++ ref)), s)).
Proof.
  intros Hpart.
  destruct (str_partition_spec _ _ _ _ _ Hpart) as (Href & Hmod & Hsep).
  repeat split; try done; unfold validate_object_reference; rewrite Hpart.
  - by intros ->.
  - intros Hm%str_is_empty_false ->. by rewrite Hm.
Qed.

(** C10. A non-empty reference without any colon is all module part:
    the answer is the missing-attribute message. *)
Theorem validate_object_reference_no_colon ref s :
  ref ≠ EmptyString →
  str_has_char ":" ref = false →
  validate_object_reference H ref s =
    (Ok (false, Some ("Missing attribute in " ++ ref)), s).
Proof.
  intros Hne%str_is_empty_false Hcolon.
  unfold validate_object_reference.
  by rewrite (str_partition_no_sep _ _ Hcolon), Hne.
Qed.

(** A returned verdict carries a reason exactly when it is negative. *)
Lemma validate_object_reference_shape ref s is_valid reason s' :
  validate_object_reference H ref s = (Ok (is_valid, reason), s') →
  (is_valid = true ∧ reason = None) ∨
  (is_valid = false ∧ ∃ msg, reason = Some msg).
Proof.
  unfold validate_object_reference.
  destruct (str_partition ":" ref) as [[module_str sep] attributes_str].
  destruct (str_is_empty module_str); [intros [= <- <- <-]; eauto|].
  destruct (str_is_empty attributes_str); [intros [= <- <- <-]; eauto|].
  destruct (import_module H module_str s) as [[module|e] s1].
  - destruct (load_attribute H module _ s1) as [[o|e] s2].
    + intros [= <- <- <-]; eauto.
    + destruct e; intros [= <- <- <-]; eauto.
  - destruct e; intros [= <- <- <-]; eauto.
Qed.

(** The attribute loop stops at the first lookup that raises. *)
Lemma load_attribute_raise_inv (o : host_obj H) names s e s' :
  load_attribute H o names s = (Raise e, s') →
  ∃ resolved name rest o' s0,
    names = (resolved ++ name :: rest)%list ∧
    load_attribute H o resolved s = (Ok o', s0) ∧
    getattr H o' name s0 = (Raise e, s').
Proof.
  revert o s. induction names as [|name names IH]; intros o s; simpl.
  - discriminate.
  - unfold hbind at 1.
    destruct (getattr H o name s) as [[o1|e1] s1] eqn:Hget.
    + intros (resolved & n & rest & o' & s0 & -> & Hres & Hraise)%IH.
      exists (name :: resolved), n, rest, o', s0. simpl.
      unfold hbind at 1. by rewrite Hget.
    + intros [= <- <-]. by exists [], name, names, o, s.
Qed.

(** C2, as the code has it.  With both parts non-empty, a
    [ModuleNotFoundError] from the import becomes the
    unable-to-load-module verdict and an [AttributeError] from the
    attribute loop becomes the unable-to-load-attribute verdict; these
    are the only two exceptions converted.  Whatever else the import or
    a lookup raises leaves the function as that same exception. *)
Theorem validate_object_reference_converts_two_exceptions
    ref module_str sep attributes_str s :
  str_partition ":" ref = (module_str, sep, attributes_str) →
  module_str ≠ EmptyString →
  attributes_str ≠ EmptyString →
  (∀ s1, import_module H module_str s = (Raise ModuleNotFoundError, s1) →
     validate_object_reference H ref s =
       (Ok (false, Some ("Unable to load module " ++ module_str)), s1)) ∧
  (∀ module s1 s2,
     import_module H module_str s = (Ok module, s1) →
     load_attribute H module (str_split "." attributes_str) s1 =
       (Raise AttributeError, s2) →
     validate_object_reference H ref s =
       (Ok (false, Some ("Unable to load attribute " ++ attributes_str
                         ++ " from module " ++ module_str)), s2)) ∧
  (∀ module s1 attribute s2,
     import_module H module_str s = (Ok module, s1) →
     load_attribute H module (str_split "." attributes_str) s1 =
       (Ok attribute, s2) →
     validate_object_reference H ref s = (Ok (true, None), s2)) ∧
  (∀ e s', validate_object_reference H ref s = (Raise e, s') ↔
     (e ≠ ModuleNotFoundError ∧
      import_module H module_str s = (Raise e, s')) ∨
     (e ≠ AttributeError ∧
      ∃ module s1,
        import_module H module_str s = (Ok module, s1) ∧
        load_attribute H module (str_split "." attributes_str) s1 =
          (Raise e, s'))).
Proof.
  intros Hpart Hm%str_is_empty_false Ha%str_is_empty_false.
  unfold validate_object_reference. rewrite Hpart, Hm, Ha.
  split; [|split; [|split]].
  - by intros s1 ->.
  - by intros module s1 s2 -> ->.
  - by intros module s1 attribute s2 -> ->.
  - intros e s'.
    destruct (import_module H module_str s) as [[module|e1] s1] eqn:Himp.
    + destruct (load_attribute H module _ s1) as [[o|e2] s2] eqn:Hload.
      * split; [done|].
        intros [[_ ?]|(_ & m' & s1' & [= <- <-] & Hl)]; [done|].
        by rewrite Hload in Hl.
      * split.
        -- destruct e2; intros [= <- <-]; right; (split; [done|]); eauto.
        -- intros [[_ ?]|(Hne & m' & s1' & [= <- <-] & Hl)]; [done|].
           rewrite Hload in Hl. injection Hl as -> ->. by destruct e.
    + split.
      * destruct e1; intros [= <- <-]; left; done.
      * intros [[Hne [= -> ->]]|(_ & ? & ? & ? & _)]; [|done].
        by destruct e.
Qed.
End validate_object_reference_facts.

(** ** validate_flower_toml after a valid structural verdict *)

Section validate_flower_toml_facts.
Context (H : Host).
Implicit Types (config : dict) (s : host_state H).

Lemma validate_flower_toml_valid_unfold config errors warnings s :
  validate_flower_toml_fields config = Ok (true, errors, warnings) →
  validate_flower_toml H config s =
    match component_ref config "serverapp" with
    | Raise e => (Raise e, s)
    | Ok serverapp =>
        match call_validate_object_reference H serverapp s with
        | (Raise e, s1) => (Raise e, s1)
        | (Ok (false, Some reason), s1) => (Ok (false, [reason], []), s1)
        | (Ok _, s1) =>
            match component_ref config "clientapp" with
            | Raise e => (Raise e, s1)
            | Ok clientapp =>
                match call_validate_object_reference H clientapp s1 with
                | (Raise e, s2) => (Raise e, s2)
                | (Ok (false, Some reason), s2) =>
                    (Ok (false, [reason], []), s2)
                | (Ok _, s2) => (Ok (true, [], []), s2)
                end
            end
        end
    end.
Proof.
  intros Hfields. unfold validate_flower_toml, hbind, lift_result, hret.
  rewrite Hfields. simpl.
  destruct (component_ref config "serverapp") as [serverapp|e]; [|done].
  destruct (call_validate_object_reference H serverapp s)
    as [[[[|] [reason|]]|e] s1]; try done;
    destruct (component_ref config "clientapp") as [clientapp|e']; try done;
    by destruct (call_validate_object_reference H clientapp s1)
      as [[[[|] [reason'|]]|e''] s2].
Qed.

(** C1. After a valid structural verdict every triple that
    [validate_flower_toml] returns has an empty warning list.  A negative
    verdict on [serverapp] is returned as its one reason, in the host
    state that verdict left (so [clientapp] was not looked at); a negative
    verdict on [clientapp] after a positive one on [serverapp] likewise;
    two positive verdicts give [(True, [], [])]. *)
Theorem validate_flower_toml_discards_warnings config errors warnings s :
  validate_flower_toml_fields config = Ok (true, errors, warnings) →
  (∀ is_valid errors' warnings' s',
     validate_flower_toml H config s =
       (Ok (is_valid, errors', warnings'), s') →
     warnings' = []) ∧
  (∀ serverapp reason s1,
     component_ref config "serverapp" = Ok (VStr serverapp) →
     validate_object_reference H serverapp s = (Ok (false, Some reason), s1) →
     validate_flower_toml H config s = (Ok (false, [reason], []), s1)) ∧
  (∀ serverapp clientapp reason s1 s2,
     component_ref config "serverapp" = Ok (VStr serverapp) →
     validate_object_reference H serverapp s = (Ok (true, None), s1) →
     component_ref config "clientapp" = Ok (VStr clientapp) →
     validate_object_reference H clientapp s1 = (Ok (false, Some reason), s2) →
     validate_flower_toml H config s = (Ok (false, [reason], []), s2)) ∧
  (∀ serverapp clientapp s1 s2,
     component_ref config "serverapp" = Ok (VStr serverapp) →
     validate_object_reference H serverapp s = (Ok (true, None), s1) →
     component_ref config "clientapp" = Ok (VStr clientapp) →
     validate_object_reference H clientapp s1 = (Ok (true, None), s2) →
     validate_flower_toml H config s = (Ok (true, [], []), s2)).
Proof.
  intros Hfields.
  rewrite (validate_flower_toml_valid_unfold _ _ _ _ Hfields).
  split; [|split; [|split]].
  - intros is_valid errors' warnings' s'.
    destruct (component_ref config "serverapp") as [serverapp|e]; [|done].
    destruct (call_validate_object_reference H serverapp s)
      as [[[[|] [reason|]]|e] s1]; try done;
      try (by intros [= <- <- <- <-]);
      destruct (component_ref config "clientapp") as [clientapp|e'];
      try done;
      destruct (call_validate_object_reference H clientapp s1)
        as [[[[|] [reason'|]]|e''] s2]; try done;
      by intros [= <- <- <- <-].
  - intros serverapp reason s1 -> Hserver. simpl. by rewrite Hserver.
  - intros serverapp clientapp reason s1 s2 -> Hserver -> Hclient. simpl.
    by rewrite Hserver, Hclient.
  - intros serverapp clientapp s1 s2 -> Hserver -> Hclient. simpl.
    by rewrite Hserver, Hclient.
Qed.
End validate_flower_toml_facts.

(** ** validate_flower_toml_fields: the recommended properties *)

Lemma append_if_missing_dict key (d : dict) msg log :
  append_if_missing key (VDict d) msg log =
    Ok (if bool_decide (is_Some (d !! key)) then log else (log ++ [msg])%list).
Proof. reflexivity. Qed.

(** C5, as the code has it.  The three recommended-property tests are
    made one after the other on any [project] table, whatever the tests
    on [name] and [version] found, and each test that fails adds its own
    warning.  With exactly [name] and [version] in [project] and both
    components present the verdict is valid, with no error and the three
    warnings for [description], [license] and [authors]. *)
Theorem validate_flower_toml_fields_recommended_warnings config project :
  config !! "project" = Some (VDict project) →
  (∀ is_valid errors warnings,
     validate_flower_toml_fields config = Ok (is_valid, errors, warnings) →
     warnings = recommended_warnings project) ∧
  (dom project = {[ "name"; "version" ]} →
   ∀ fl components,
     config !! "flower" = Some (VDict fl) →
     fl !! "components" = Some (VDict components) →
     is_Some (components !! "serverapp") →
     is_Some (components !! "clientapp") →
     validate_flower_toml_fields config =
       Ok (true, [],
           [msg_recommended_missing "description" "[project]";
            msg_recommended_missing "license" "[project]";
            msg_recommended_missing "authors" "[project]"])).
Proof.
  intros Hproject. split.
  - intros is_valid errors warnings. unfold validate_flower_toml_fields.
    rewrite Hproject. unfold append_if_missing. cbn [rbind py_in].
    intros (errors' & _ & [= _ _ <-])%rbind_Ok.
    unfold recommended_warnings. simpl.
    by repeat case_bool_decide.
  - intros Hdom fl components Hflower Hcomponents Hserver Hclient.
    assert (∀ key, is_Some (project !! key) ↔ key = "name" ∨ key = "version")
      as Hkeys.
    { intros key. by rewrite <- elem_of_dom, Hdom, elem_of_union, !elem_of_singleton. }
    unfold validate_flower_toml_fields.
    rewrite Hproject, Hflower. unfold append_if_missing.
    cbn [rbind py_in py_getitem].
    rewrite !(bool_decide_eq_true_2 (is_Some (project !! _)))
      by (apply Hkeys; auto).
    rewrite !(bool_decide_eq_false_2 (is_Some (project !! _)))
      by (rewrite Hkeys; intros [?|?]; discriminate).
    rewrite (bool_decide_eq_true_2 (is_Some (fl !! _))) by by rewrite Hcomponents.
    cbn [negb]. rewrite Hcomponents. cbn [rbind py_in].
    by rewrite !bool_decide_eq_true_2.
Qed.

(** C5 as stated fails: on the sample project there are three warnings,
    not two. *)
Lemma sample_config_has_three_warnings :
  ∃ warnings,
    validate_flower_toml_fields (sample_config "os:getcwd" "os:path.join") =
      Ok (true, [], warnings) ∧
    dom sample_project = {[ "name"; "version" ]} ∧
    List.length warnings = 3 ∧
    List.length warnings ≠ 2.
Proof.
  eexists. split; [vm_compute; reflexivity|].
  split; [by vm_compute|]. split; [reflexivity|]. simpl. lia.
Qed.

(** C2 as stated fails: a reference whose module part is a relative
    name has both parts non-empty, and the [TypeError] of the import
    leaves [validate_object_reference] as an exception. *)
Lemma relative_module_reference_raises :
  str_partition ":" ".pkg:fn" = (".pkg", ":", "fn") ∧
  import_module os_host ".pkg" [] = (Raise TypeError, ["import .pkg"]) ∧
  validate_object_reference os_host ".pkg:fn" [] =
    (Raise TypeError, ["import .pkg"]).
Proof. by vm_compute. Qed.

(** C9 as stated fails: with [components] a string that contains both
    names the verdict is valid, yet there is no mapping under
    [components] and so no key [serverapp] or [clientapp]; both lookups
    of [validate_flower_toml] raise [TypeError], and so does
    [validate_flower_toml], before any call to the host. *)
Lemma string_components_valid_without_keys :
  validate_flower_toml_fields string_components_config =
    Ok (true, [], recommended_warnings sample_project) ∧
  (let* flower := py_getitem (VDict string_components_config) "flower" in
   py_getitem flower "components") = Ok (VStr "serverapp clientapp") ∧
  component_ref string_components_config "serverapp" = Raise TypeError ∧
  component_ref string_components_config "clientapp" = Raise TypeError ∧
  validate_flower_toml os_host string_components_config [] =
    (Raise TypeError, []).
Proof.
  assert (validate_flower_toml_fields string_components_config =
            Ok (true, [], recommended_warnings sample_project)) as Hfields.
  { vm_compute. reflexivity. }
  split; [done|]. split; [reflexivity|].
  split; [reflexivity|]. split; [reflexivity|].
  rewrite (validate_flower_toml_valid_unfold os_host _ _ _ [] Hfields).
  reflexivity.
Qed.

(** * Concrete runs *)

Lemma apply_defaults_deep_merge_example :
  apply_defaults {[ "a" := VDict {[ "x" := VInt 1 ]} ]}
                 {[ "a" := VDict {[ "x" := VInt 2; "y" := VInt 3 ]} ]} !! "a"
  = Some (VDict (apply_defaults {[ "x" := VInt 1 ]}
                                {[ "x" := VInt 2; "y" := VInt 3 ]})).
Proof.
  apply (proj1 (proj2 (apply_defaults_fills_merges_keeps
           {[ "a" := VDict {[ "x" := VInt 1 ]} ]}
           {[ "a" := VDict {[ "x" := VInt 2; "y" := VInt 3 ]} ]} "a")));
    reflexivity.
Defined.

Lemma unknown_module_serverapp_example :
  validate_flower_toml os_host (sample_config "badmodule:fn" "os:getcwd") [] =
    (Ok (false, ["Unable to load module badmodule"], []),
     ["import badmodule"]).
Proof.
  refine (proj1 (proj2 (validate_flower_toml_discards_warnings os_host
            (sample_config "badmodule:fn" "os:getcwd") []
            (recommended_warnings sample_project) [] _))
          "badmodule:fn" _ _ _ _); vm_compute; reflexivity.
Defined.

Lemma unknown_module_reference_example :
  validate_object_reference os_host "badmodule:fn" [] =
    (Ok (false, Some "Unable to load module badmodule"), ["import badmodule"]).
Proof.
  refine (proj1 (validate_object_reference_converts_two_exceptions os_host
            "badmodule:fn" "badmodule" ":" "fn" [] _ _ _) _ _);
    vm_compute; (reflexivity || discriminate).
Defined.

Lemma empty_config_example :
  validate_flower_toml os_host ∅ [] =
    (Ok (false, [msg_missing_project; msg_missing_flower], []), []).
Proof.
  apply validate_flower_toml_structural_failure. vm_compute. reflexivity.
Defined.

Lemma sample_config_flag_example :
  (true = true ↔ @nil string = []) ∧ true = Nat.eqb (List.length (@nil string)) 0.
Proof.
  apply (validate_flower_toml_fields_valid_iff_no_errors
           (sample_config "os:getcwd" "os:path.join") true []
           (recommended_warnings sample_project)).
  vm_compute. reflexivity.
Defined.

Lemma sample_config_project_only_name_version_example :
  validate_flower_toml_fields (sample_config "os:getcwd" "os:path.join") =
    Ok (true, [],
        [msg_recommended_missing "description" "[project]";
         msg_recommended_missing "license" "[project]";
         msg_recommended_missing "authors" "[project]"]).
Proof.
  assert (sample_config "os:getcwd" "os:path.join" !! "project" =
            Some (VDict sample_project)) as Hproject
    by (vm_compute; reflexivity).
  assert (dom sample_project = {[ "name"; "version" ]}) as Hdom
    by (vm_compute; reflexivity).
  apply (proj2 (validate_flower_toml_fields_recommended_warnings
                  _ _ Hproject) Hdom
           {[ "components" :=
                VDict (sample_components "os:getcwd" "os:path.join") ]}
           (sample_components "os:getcwd" "os:path.join"));
    vm_compute; eauto.
Defined.

Lemma empty_module_part_example :
  validate_object_reference os_host ":getcwd" [] =
    (Ok (false, Some "Missing module in :getcwd"), []).
Proof.
  refine (proj1 (proj2 (proj2 (proj2
            (validate_object_reference_missing_parts os_host
               ":getcwd" EmptyString ":" "getcwd" [] _)))) _);
    reflexivity.
Defined.

Lemma sample_config_lookups_example :
  ∃ fl components,
    sample_config "os:getcwd" "os:path.join" !! "flower" = Some (VDict fl) ∧
    fl !! "components" = Some components ∧
    py_in "serverapp" components = Ok true ∧
    py_in "clientapp" components = Ok true.
Proof.
  destruct (valid_fields_component_lookups_no_KeyError
              (sample_config "os:getcwd" "os:path.join") []
              (recommended_warnings sample_project))
    as (fl & components & Hfl & Hcomponents & Hserver & Hclient & _).
  - vm_compute. reflexivity.
  - by exists fl, components.
Defined.

Lemma colonless_reference_example :
  validate_object_reference os_host "os" [] =
    (Ok (false, Some "Missing attribute in os"), []).
Proof.
  apply validate_object_reference_no_colon; [discriminate|reflexivity].
Defined.

(** * Further properties *)

(** ** load_flower_toml *)

Lemma load_flower_toml_unfold (E : Environment) (path : option string) :
  load_flower_toml E path =
    let* toml_path := toml_path_of E path in
    if negb (isfile E toml_path) then Ok None
    else
      let* text := read_text E toml_path in
      let* data := tomli_loads E text in
      Ok (Some data).
Proof. by destruct path. Qed.

(** X1.  An absent file is answered with [None], whatever reading or
    parsing would have done; and [None] is never the answer for a file
    that is there: one that cannot be read or parsed raises.  The file
    is the one at the given path or, without a path, [flower.toml] in
    the working directory. *)
Theorem load_flower_toml_none_iff_no_file
    (E : Environment) (path : option string) :
  load_flower_toml E path = Ok None ↔
  ∃ toml_path, toml_path_of E path = Ok toml_path ∧
               isfile E toml_path = false.
Proof.
  rewrite load_flower_toml_unfold.
  destruct (toml_path_of E path) as [p|e0]; simpl;
    [|by split; [|intros (? & ? & _)]].
  destruct (isfile E p) eqn:Hfile; simpl.
  - split; [|intros (? & [= <-] & ?); congruence].
    destruct (read_text E p) as [text|e]; simpl; [|done].
    by destruct (tomli_loads E text).
  - split; [eauto|done].
Qed.

(** X2.  A configuration is returned exactly when the file is there, its
    text can be read, and the parser accepts the text; it is the
    parser's result. *)
Theorem load_flower_toml_some_iff_parsed
    (E : Environment) (path : option string) (data : dict) :
  load_flower_toml E path = Ok (Some data) ↔
  ∃ toml_path text,
    toml_path_of E path = Ok toml_path ∧
    isfile E toml_path = true ∧
    read_text E toml_path = Ok text ∧
    tomli_loads E text = Ok data.
Proof.
  rewrite load_flower_toml_unfold.
  destruct (toml_path_of E path) as [p|e0]; simpl;
    [|by split; [|intros (? & ? & ? & _)]].
  destruct (isfile E p) eqn:Hfile; simpl;
    [|split; [done|intros (? & ? & [= <-] & ? & _); congruence]].
  destruct (read_text E p) as [text|e] eqn:Hread; simpl.
  - destruct (tomli_loads E text) as [d|e] eqn:Hloads; simpl.
    + split.
      * intros [= <-]. by exists p, text.
      * intros (? & ? & [= <-] & _ & Ht & Hd). congruence.
    + split; [done|].
      intros (? & ? & [= <-] & _ & Ht & Hd). congruence.
  - split; [done|]. intros (? & ? & [= <-] & _ & Ht & _). congruence.
Qed.

(** X3.  Nothing is caught: an exception leaves [load_flower_toml] exactly
    when the working directory cannot be had (and no path was given),
    or the file is there and reading it raises, or its text is read
    and the parser raises. *)
Theorem load_flower_toml_raises_iff
    (E : Environment) (path : option string) (e : exn) :
  load_flower_toml E path = Raise e ↔
  (path = None ∧ getcwd E = Raise e) ∨
  ∃ toml_path,
    toml_path_of E path = Ok toml_path ∧
    isfile E toml_path = true ∧
    (read_text E toml_path = Raise e ∨
     ∃ text, read_text E toml_path = Ok text ∧ tomli_loads E text = Raise e).
Proof.
  rewrite load_flower_toml_unfold.
  destruct (toml_path_of E path) as [p|e0] eqn:Hpath; simpl.
  - assert (¬ (path = None ∧ getcwd E = Raise e)) as Hcwd.
    { intros [-> Hraise]. simpl in Hpath. by rewrite Hraise in Hpath. }
    destruct (isfile E p) eqn:Hfile; simpl;
      [|split; [done|intros [?|(? & [= <-] & ? & _)]; [done|congruence]]].
    destruct (read_text E p) as [text|e1] eqn:Hread; simpl.
    + destruct (tomli_loads E text) as [d|e2] eqn:Hloads; simpl.
      * split; [done|].
        intros [?|(? & [= <-] & _ & [?|(? & ? & ?)])]; [done|congruence..].
      * split.
        -- intros [= ->]. right. exists p. do 2 (split; [done|]).
           right. by exists text.
        -- intros [?|(? & [= <-] & _ & [?|(? & ? & ?)])];
             [done|congruence..].
    + split.
      * intros [= ->]. right. exists p. do 2 (split; [done|]). by left.
      * intros [?|(? & [= <-] & _ & [?|(? & ? & ?)])]; [done|congruence..].
  - destruct path as [p|]; [done|]. simpl in Hpath.
    destruct (getcwd E) as [cur_dir|e1]; [done|]. injection Hpath as ->.
    split.
    + intros [= ->]. by left.
    + intros [[_ [= ->]]|(? & ? & _)]; done.
Qed.

(** ** validate_flower_toml_fields: what it reads *)

(** X4.  The validator reads the sections [project] and [flower] and
    nothing else: two configurations that agree on both get the same
    answer, from the structural validator and from
    [validate_flower_toml]. *)
Theorem validate_flower_toml_reads_two_sections
    (H : Host) (config1 config2 : dict) (s : host_state H) :
  config1 !! "project" = config2 !! "project" →
  config1 !! "flower" = config2 !! "flower" →
  validate_flower_toml_fields config1 = validate_flower_toml_fields config2 ∧
  validate_flower_toml H config1 s = validate_flower_toml H config2 s.
Proof.
  intros Hproject Hflower.
  assert (validate_flower_toml_fields config1 =
          validate_flower_toml_fields config2) as Hfields.
  { unfold validate_flower_toml_fields. by rewrite Hproject, Hflower. }
  assert (∀ name, component_ref config1 name = component_ref config2 name)
    as Href.
  { intros name. unfold component_ref. simpl. by rewrite Hflower. }
  split; [done|].
  unfold validate_flower_toml. by rewrite Hfields, !Href.
Qed.

(** ** validate_flower_toml_fields on tables *)

Lemma validate_flower_toml_fields_project_table (project : dict) :
  ∃ errors warnings,
    rbind (append_if_missing "name" (VDict project)
             (msg_property_missing "name" "[project]") [])
      (λ errors, rbind (append_if_missing "version" (VDict project)
                          (msg_property_missing "version" "[project]") errors)
      (λ errors, rbind (append_if_missing "description" (VDict project)
                          (msg_recommended_missing "description" "[project]") [])
      (λ warnings, rbind (append_if_missing "license" (VDict project)
                          (msg_recommended_missing "license" "[project]") warnings)
      (λ warnings, rbind (append_if_missing "authors" (VDict project)
                          (msg_recommended_missing "authors" "[project]") warnings)
      (λ warnings, Ok (errors, warnings))))))
    = Ok (errors, warnings) ∧
    (errors = [] ↔ is_Some (project !! "name") ∧ is_Some (project !! "version")).
Proof.
  rewrite !append_if_missing_dict. simpl.
  do 2 eexists. split; [reflexivity|].
  repeat case_bool_decide; simpl; split; try done; intros [? ?]; done.
Qed.

(** X5.  When [project], [flower] and [flower.components] are tables
    wherever they are present, the validator raises nothing, and its
    verdict is positive exactly when all three are present with [name]
    and [version] in the first and [serverapp] and [clientapp] in the
    last. *)
Theorem validate_flower_toml_fields_on_tables (config : dict) :
  sections_are_tables config = true →
  ∃ errors warnings,
    validate_flower_toml_fields config =
      Ok (has_required_properties config, errors, warnings).
Proof.
  unfold sections_are_tables, has_required_properties,
    validate_flower_toml_fields, append_if_missing.
  intros [Hp Hf]%andb_true_iff.
  destruct (config !! "project") as [[| | | |project]|]; try done;
    destruct (config !! "flower") as [[| | | |fl]|]; try done;
    cbn [rbind py_in py_getitem];
    try (destruct (fl !! "components") as [[| | | |components]|] eqn:Hc;
         try done);
    rewrite ?(bool_decide_eq_true_2 (is_Some (Some _))) by eauto;
    rewrite ?(bool_decide_eq_false_2 (is_Some None)) by (by intros [? ?]);
    cbn [negb rbind py_in py_getitem];
    destruct_is_Some_tests; simpl; eauto.
Qed.

(** ** validate_flower_toml_fields: missing sections *)

Lemma append_if_missing_cases key container msg log log' :
  append_if_missing key container msg log = Ok log' →
  log' = log ∨ log' = (log ++ [msg])%list.
Proof.
  intros ([|] & _ & ->)%append_if_missing_Ok; auto.
Qed.

(** What the validator does about [flower], given the errors so far. *)
Lemma validate_flower_toml_fields_unfold config is_valid errors warnings :
  validate_flower_toml_fields config = Ok (is_valid, errors, warnings) →
  ∃ project_errors flower_errors,
    errors = (project_errors ++ flower_errors)%list ∧
    is_valid = Nat.eqb (List.length errors) 0 ∧
    match config !! "project" with
    | None => project_errors = [msg_missing_project] ∧ warnings = []
    | Some project =>
        project_errors `sublist_of`
          [msg_property_missing "name" "[project]";
           msg_property_missing "version" "[project]"] ∧
        warnings `sublist_of` all_warnings
    end ∧
    match config !! "flower" with
    | None => flower_errors = [msg_missing_flower]
    | Some flower =>
        (py_in "components" flower = Ok false ∧
         flower_errors = [msg_missing_components]) ∨
        (py_in "components" flower = Ok true ∧
         flower_errors `sublist_of`
           [msg_property_missing "serverapp" "[flower.components]";
            msg_property_missing "clientapp" "[flower.components]"])
    end.
Proof.
  intros Hret.
  pose proof (validate_flower_toml_fields_flag_eq _ _ _ _ Hret) as Hflag.
  unfold validate_flower_toml_fields in Hret.
  apply rbind_Ok in Hret as ([errors0 warnings0] & Hproject & Hret).
  apply rbind_Ok in Hret as (errors1 & Hflower & Hret).
  injection Hret as _ -> ->.
  assert (∃ flower_errors, errors = (errors0 ++ flower_errors)%list ∧
    match config !! "flower" with
    | None => flower_errors = [msg_missing_flower]
    | Some flower =>
        (py_in "components" flower = Ok false ∧
         flower_errors = [msg_missing_components]) ∨
        (py_in "components" flower = Ok true ∧
         flower_errors `sublist_of`
           [msg_property_missing "serverapp" "[flower.components]";
            msg_property_missing "clientapp" "[flower.components]"])
    end) as (flower_errors & -> & Hfl).
  { destruct (config !! "flower") as [flower|].
    - apply rbind_Ok in Hflower as (has_components & Hcomp & Hflower).
      destruct has_components; simpl in Hflower.
      + apply rbind_Ok in Hflower as (components & Hget & Hflower).
        apply rbind_Ok in Hflower as (errors2 & Hserver & Hflower).
        apply rbind_Ok in Hflower as (errors3 & Hclient & Hflower).
        injection Hflower as ->.
        apply append_if_missing_cases in Hserver as [->| ->];
          apply append_if_missing_cases in Hclient as [->| ->].
        * exists []. rewrite app_nil_r. split; [done|]. right.
          split; [done|]. apply sublist_nil_l.
        * eexists. split; [done|]. right. split; [done|].
          by apply sublist_cons, sublist_skip.
        * eexists. split; [done|]. right. split; [done|].
          by apply sublist_skip, sublist_nil_l.
        * rewrite <- app_assoc. eexists. split; [done|]. right. by split.
      + injection Hflower as <-. eexists. split; [done|]. by left.
    - injection Hflower as <-. by eexists. }
  exists errors0, flower_errors. split; [done|]. split; [done|]. split; [|done].
  destruct (config !! "project") as [project|].
  - apply rbind_Ok in Hproject as (e1 & Hname & Hproject).
    apply rbind_Ok in Hproject as (e2 & Hversion & Hproject).
    apply rbind_Ok in Hproject as (w1 & Hd & Hproject).
    apply rbind_Ok in Hproject as (w2 & Hl & Hproject).
    apply rbind_Ok in Hproject as (w3 & Ha & Hproject).
    injection Hproject as -> ->.
    apply append_if_missing_cases in Hname as [->| ->];
      apply append_if_missing_cases in Hversion as [->| ->];
      apply append_if_missing_cases in Hd as [->| ->];
      apply append_if_missing_cases in Hl as [->| ->];
      apply append_if_missing_cases in Ha as [->| ->];
      simpl; unfold all_warnings;
      (split; repeat first [done | apply sublist_skip | apply sublist_cons
                                 | apply sublist_nil_l]).
  - by injection Hproject as <- <-.
Qed.

(** X6.  A section that is missing is reported by its own message, and
    nothing inside it is tested: without [project] the first error is
    [Missing [project] section] and there is no warning; without
    [flower] the last error is [Missing [flower] section]; with a
    [flower] that has no [components] the last error is [Missing
    [flower.components] section].  The verdict is negative in each
    case. *)
Theorem validate_flower_toml_fields_missing_section
    config is_valid errors warnings :
  validate_flower_toml_fields config = Ok (is_valid, errors, warnings) →
  (config !! "project" = None →
     is_valid = false ∧ warnings = [] ∧
     ∃ rest, errors = msg_missing_project :: rest) ∧
  (config !! "flower" = None →
     is_valid = false ∧
     ∃ before, errors = (before ++ [msg_missing_flower])%list) ∧
  (∀ flower, config !! "flower" = Some flower →
     py_in "components" flower = Ok false →
     is_valid = false ∧
     ∃ before, errors = (before ++ [msg_missing_components])%list).
Proof.
  intros (pe & fe & -> & -> & Hp & Hf)%validate_flower_toml_fields_unfold.
  split; [|split].
  - intros Hnone. rewrite Hnone in Hp. destruct Hp as [-> ->]. eauto.
  - intros Hnone. rewrite Hnone in Hf. subst fe.
    split; [by destruct pe|]. eauto.
  - intros flower Hsome Hin. rewrite Hsome in Hf.
    destruct Hf as [[_ ->]|[Hin' _]]; [|congruence].
    split; [by destruct pe|]. eauto.
Qed.

(** X7.  The messages come in the order of the tests and none comes twice:
    the errors are a sublist of the seven error messages, the warnings
    a sublist of the three warning messages; there are at most four
    errors and three warnings. *)
Theorem validate_flower_toml_fields_messages
    config is_valid errors warnings :
  validate_flower_toml_fields config = Ok (is_valid, errors, warnings) →
  errors `sublist_of` all_errors ∧
  warnings `sublist_of` all_warnings ∧
  NoDup errors ∧ NoDup warnings ∧
  (List.length errors ≤ 4)%nat ∧
  (List.length warnings ≤ 3)%nat.
Proof.
  intros (pe & fe & -> & _ & Hp & Hf)%validate_flower_toml_fields_unfold.
  assert (NoDup all_errors ∧ NoDup all_warnings) as [Hne Hnw].
  { split; apply (bool_decide_unpack _); by vm_compute. }
  cut ((pe ++ fe)%list `sublist_of` all_errors ∧
       warnings `sublist_of` all_warnings ∧
       (List.length (pe ++ fe) ≤ 4)%nat ∧
       (List.length warnings ≤ 3)%nat).
  { intros (He & Hw & ? & ?). do 2 (split; [done|]).
    split; [by apply (sublist_NoDup _ _ Hne)|].
    split; [by apply (sublist_NoDup _ _ Hnw)|done]. }
  assert (pe `sublist_of` firstn 3 all_errors ∧ (List.length pe ≤ 2)%nat ∧
          warnings `sublist_of` all_warnings) as (Hpe & Hpl & Hw).
  { destruct (config !! "project").
    - destruct Hp as [Hpe Hw]. split; [by apply sublist_cons_r; left|].
      split; [|done]. by apply sublist_length in Hpe.
    - destruct Hp as [-> ->]. split.
      + simpl. by apply sublist_skip, sublist_nil_l.
      + split; [simpl; lia|apply sublist_nil_l]. }
  assert (fe `sublist_of` skipn 3 all_errors ∧ (List.length fe ≤ 2)%nat)
    as (Hfe & Hfl).
  { destruct (config !! "flower").
    - destruct Hf as [[_ ->]|[_ Hfe]].
      + split; [|simpl; lia]. simpl.
        by apply sublist_cons, sublist_skip, sublist_nil_l.
      + split; [by do 2 apply sublist_cons|]. by apply sublist_length in Hfe.
    - subst fe. split; [|simpl; lia]. simpl. by apply sublist_skip, sublist_nil_l. }
  split; [|split; [done|split]].
  - rewrite <- (firstn_skipn 3 all_errors). by apply sublist_app.
  - rewrite length_app. lia.
  - by apply sublist_length in Hw.
Qed.

(** ** validate_flower_toml_fields: sections that are no tables *)

(** X8.  [in] raises [TypeError] on a number or a boolean, and a string
    cannot be subscripted with a key; the validator catches nothing.
    So a [project] that is a number or a boolean makes it raise, and
    so does, after a [project] that is absent or a table, a [flower]
    that is a number or a boolean, or a string in which [components]
    occurs (the membership test passes and
    [config["flower"]["components"]] raises). *)
Theorem validate_flower_toml_fields_raises_TypeError (config : dict) :
  (∀ project, config !! "project" = Some project → is_scalar project = true →
     validate_flower_toml_fields config = Raise TypeError) ∧
  (absent_or_table (config !! "project") = true →
   ∀ flower, config !! "flower" = Some flower →
     (is_scalar flower = true ∨
      ∃ s, flower = VStr s ∧ str_contains "components" s = true) →
     validate_flower_toml_fields config = Raise TypeError).
Proof.
  unfold validate_flower_toml_fields. split.
  - intros project -> Hscalar. by destruct project.
  - intros Hp flower -> Hflower.
    destruct (config !! "project") as [[| | | |project]|]; try done.
    + destruct (validate_flower_toml_fields_project_table project)
        as (errors & warnings & -> & _). cbn [rbind].
      destruct Hflower as [Hscalar|(s & -> & Hs)]; [by destruct flower|].
      simpl. by rewrite Hs.
    + cbn [rbind].
      destruct Hflower as [Hscalar|(s & -> & Hs)]; [by destruct flower|].
      simpl. by rewrite Hs.
Qed.

(** ** Strings: split *)

Lemma str_split_not_nil (sep : ascii) (s : string) : str_split sep s ≠ [].
Proof.
  induction s as [|c s IH]; simpl; [done|].
  destruct (Ascii.eqb c sep); [done|]. by destruct (str_split sep s).
Qed.

(** Splitting a string that has a separator at some place splits the two
    sides. *)
Lemma str_split_app (sep : ascii) (a b : string) :
  str_split sep (a ++ String sep b) = (str_split sep a ++ str_split sep b)%list.
Proof.
  induction a as [|c a IH]; simpl.
  - by rewrite Ascii.eqb_refl.
  - destruct (Ascii.eqb c sep); [by rewrite IH|].
    rewrite IH. pose proof (str_split_not_nil sep a).
    by destruct (str_split sep a).
Qed.

Lemma str_partition_app (sep : ascii) (a b : string) :
  str_has_char sep a = false →
  str_partition sep (a ++ String sep b) = (a, String sep EmptyString, b).
Proof.
  induction a as [|c a IH]; simpl.
  - by rewrite Ascii.eqb_refl.
  - intros [Hc Ha]%orb_false_elim. by rewrite Hc, (IH Ha).
Qed.

(** ** validate_object_reference: what it can answer *)

Section validate_object_reference_answers.
Context (H : Host).
Implicit Types (ref module_str attributes_str : string) (s : host_state H).

(** The attribute loop over two lists of names, one after the other. *)
Lemma load_attribute_app (o : host_obj H) (names1 names2 : list string) s :
  load_attribute H o (names1 ++ names2) s =
    match load_attribute H o names1 s with
    | (Ok o', s') => load_attribute H o' names2 s'
    | (Raise e, s') => (Raise e, s')
    end.
Proof.
  revert o s. induction names1 as [|name names1 IH]; intros o s; simpl.
  - done.
  - unfold hbind. destruct (getattr H o name s) as [[o1|e] s1]; [apply IH|done].
Qed.

(** X9.  Every answer of [validate_object_reference] is either [(True,
    None)] or [False] with one of four messages, made from the
    reference and the two parts the first colon cuts it into. *)
Theorem validate_object_reference_answers
    ref module_str sep attributes_str s is_valid reason s' :
  str_partition ":" ref = (module_str, sep, attributes_str) →
  validate_object_reference H ref s = (Ok (is_valid, reason), s') →
  (is_valid = true ∧ reason = None) ∨
  (is_valid = false ∧
   ∃ msg, reason = Some msg ∧
     (msg = "Missing module in " ++ ref ∨
      msg = "Missing attribute in " ++ ref ∨
      msg = "Unable to load module " ++ module_str ∨
      msg = "Unable to load attribute " ++ attributes_str
              ++ " from module " ++ module_str)).
Proof.
  intros Hpart. unfold validate_object_reference. rewrite Hpart.
  destruct (str_is_empty module_str).
  { intros [= <- <- <-]. right. eauto 6. }
  destruct (str_is_empty attributes_str).
  { intros [= <- <- <-]. right. eauto 6. }
  destruct (import_module H module_str s) as [[module|e] s1].
  - destruct (load_attribute H module _ s1) as [[o|e] s2].
    + intros [= <- <- <-]. by left.
    + destruct e; intros [= <- <- <-]. right. eauto 8.
  - destruct e; intros [= <- <- <-]. right. eauto 7.
Qed.

(** X10.  A reference that resolves still resolves when cut before a dot
    of its attribute path: [m:a.b] valid makes [m:a] valid, from the
    same host state. *)
Theorem validate_object_reference_prefix
    module_str attributes_str rest s s' :
  str_has_char ":" module_str = false →
  attributes_str ≠ EmptyString →
  validate_object_reference H
    (module_str ++ ":" ++ attributes_str ++ "." ++ rest) s =
    (Ok (true, None), s') →
  ∃ s1, validate_object_reference H (module_str ++ ":" ++ attributes_str) s =
          (Ok (true, None), s1).
Proof.
  intros Hcolon Hattr%str_is_empty_false.
  change (module_str ++ ":" ++ attributes_str ++ "." ++ rest)
    with (module_str ++ String ":" (attributes_str ++ String "." rest)).
  change (module_str ++ ":" ++ attributes_str)
    with (module_str ++ String ":" attributes_str).
  unfold validate_object_reference.
  rewrite !(str_partition_app _ _ _ Hcolon), Hattr.
  destruct (str_is_empty module_str); [done|].
  assert (str_is_empty (attributes_str ++ String "." rest) = false) as ->.
  { by destruct attributes_str. }
  destruct (import_module H module_str s) as [[module|e] s1]; [|by destruct e].
  rewrite str_split_app, load_attribute_app.
  destruct (load_attribute H module (str_split "." attributes_str) s1)
    as [[o|e] s2]; [by eauto|].
  by destruct e.
Qed.
End validate_object_reference_answers.

(** ** validate_flower_toml: verdicts and exceptions *)

Section validate_flower_toml_answers.
Context (H : Host).
Implicit Types (config : dict) (s : host_state H).

Lemma call_validate_object_reference_shape v s is_valid reason s' :
  call_validate_object_reference H v s = (Ok (is_valid, reason), s') →
  ∃ ref, v = VStr ref ∧
    validate_object_reference H ref s = (Ok (is_valid, reason), s') ∧
    ((is_valid = true ∧ reason = None) ∨
     (is_valid = false ∧ ∃ msg, reason = Some msg)).
Proof.
  destruct v as [ref| | | |]; simpl; try done.
  intros Hret. exists ref. split; [done|]. split; [done|].
  by eapply validate_object_reference_shape.
Qed.

(** X11.  Whatever [validate_flower_toml] returns, the verdict is positive
    exactly when the error list is empty, and a positive verdict
    carries no warning. *)
Theorem validate_flower_toml_verdict
    config s is_valid errors warnings s' :
  validate_flower_toml H config s = (Ok (is_valid, errors, warnings), s') →
  (is_valid = true ↔ errors = []) ∧
  (is_valid = true → warnings = []).
Proof.
  destruct (validate_flower_toml_fields config) as [[[v e] w]|ex] eqn:Hfields.
  - destruct v.
    + rewrite (validate_flower_toml_valid_unfold H _ _ _ s Hfields).
      destruct (component_ref config "serverapp") as [serverapp|ex]; [|done].
      destruct (call_validate_object_reference H serverapp s)
        as [[[v1 r1]|ex] s1] eqn:Hserver; [|done].
      apply call_validate_object_reference_shape in Hserver
        as (_ & _ & _ & [[-> ->]|(-> & msg & ->)]).
      * destruct (component_ref config "clientapp") as [clientapp|ex]; [|done].
        destruct (call_validate_object_reference H clientapp s1)
          as [[[v2 r2]|ex] s2] eqn:Hclient; [|done].
        apply call_validate_object_reference_shape in Hclient
          as (_ & _ & _ & [[-> ->]|(-> & msg & ->)]);
          by intros [= <- <- <- <-].
      * by intros [= <- <- <- <-].
    + unfold validate_flower_toml, hbind, lift_result. rewrite Hfields. simpl.
      intros [= <- <- <- <-].
      apply validate_flower_toml_fields_flag_eq in Hfields.
      by destruct e.
  - unfold validate_flower_toml, hbind, lift_result. by rewrite Hfields.
Qed.

(** X12.  A positive verdict of [validate_flower_toml] means all of this:
    the structure is valid, both components are strings, the
    [serverapp] reference resolves from the starting host state, and
    the [clientapp] reference resolves from the state that check left,
    which gives the final state. *)
Theorem validate_flower_toml_valid_inv config s errors warnings s' :
  validate_flower_toml H config s = (Ok (true, errors, warnings), s') →
  errors = [] ∧ warnings = [] ∧
  (∃ structural_warnings,
     validate_flower_toml_fields config = Ok (true, [], structural_warnings)) ∧
  ∃ serverapp clientapp s1,
    component_ref config "serverapp" = Ok (VStr serverapp) ∧
    validate_object_reference H serverapp s = (Ok (true, None), s1) ∧
    component_ref config "clientapp" = Ok (VStr clientapp) ∧
    validate_object_reference H clientapp s1 = (Ok (true, None), s').
Proof.
  destruct (validate_flower_toml_fields config) as [[[v e] w]|ex] eqn:Hfields.
  - destruct v.
    + pose proof (validate_flower_toml_fields_flag_eq _ _ _ _ Hfields) as He.
      destruct e; [|done].
      rewrite (validate_flower_toml_valid_unfold H _ _ _ s Hfields).
      destruct (component_ref config "serverapp") as [serverapp|ex]; [|done].
      destruct (call_validate_object_reference H serverapp s)
        as [[[v1 r1]|ex] s1] eqn:Hserver; [|done].
      apply call_validate_object_reference_shape in Hserver
        as (ref1 & -> & Hserver & [[-> ->]|(-> & msg & ->)]); [|done].
      destruct (component_ref config "clientapp") as [clientapp|ex]; [|done].
      destruct (call_validate_object_reference H clientapp s1)
        as [[[v2 r2]|ex] s2] eqn:Hclient; [|done].
      apply call_validate_object_reference_shape in Hclient
        as (ref2 & -> & Hclient & [[-> ->]|(-> & msg & ->)]); [|done].
      intros [= <- <- <-]. do 2 (split; [done|]). split; [by eexists|].
      by exists ref1, ref2, s1.
    + unfold validate_flower_toml, hbind, lift_result. by rewrite Hfields.
  - unfold validate_flower_toml, hbind, lift_result. by rewrite Hfields.
Qed.

(** X13.  [validate_flower_toml] catches nothing.  What the structural
    validator raises leaves it unchanged, before any call to the host.
    After a valid structural verdict, what a component lookup raises
    leaves it too, and a component that is not a string raises
    [AttributeError] (it has no [partition]): for [serverapp] before
    any call to the host, for [clientapp] in the host state the
    [serverapp] check left. *)
Theorem validate_flower_toml_raises config s :
  (∀ e, validate_flower_toml_fields config = Raise e →
     validate_flower_toml H config s = (Raise e, s)) ∧
  (∀ errors warnings,
     validate_flower_toml_fields config = Ok (true, errors, warnings) →
     (∀ e, component_ref config "serverapp" = Raise e →
        validate_flower_toml H config s = (Raise e, s)) ∧
     (∀ v, component_ref config "serverapp" = Ok v →
        (∀ ref, v ≠ VStr ref) →
        validate_flower_toml H config s = (Raise AttributeError, s)) ∧
     (∀ serverapp s1 v,
        component_ref config "serverapp" = Ok (VStr serverapp) →
        validate_object_reference H serverapp s = (Ok (true, None), s1) →
        component_ref config "clientapp" = Ok v →
        (∀ ref, v ≠ VStr ref) →
        validate_flower_toml H config s = (Raise AttributeError, s1))).
Proof.
  split.
  - intros e Hfields. unfold validate_flower_toml, hbind, lift_result.
    by rewrite Hfields.
  - intros errors warnings Hfields.
    rewrite (validate_flower_toml_valid_unfold H _ _ _ s Hfields).
    split; [|split].
    + by intros e ->.
    + intros v -> Hv. destruct v as [ref| | | |]; try done. by destruct (Hv ref).
    + intros serverapp s1 v -> Hserver -> Hv. simpl. rewrite Hserver.
      destruct v as [ref| | | |]; try done. by destruct (Hv ref).
Qed.
End validate_flower_toml_answers.

(** ** apply_defaults: the order of the keys *)

(** One turn of the loop changes what is found under its own key only. *)
Lemma apply_defaults_step_lookup key dv (config : dict) k :
  apply_defaults_step apply_defaults_nested key dv config !! k =
    if decide (key = k)
    then match config !! k with
         | Some cv => Some (apply_defaults_nested cv dv)
         | None => Some dv
         end
    else config !! k.
Proof.
  unfold apply_defaults_step.
  destruct (decide (key = k)) as [->|Hne].
  - destruct (config !! k); by rewrite lookup_insert_eq.
  - destruct (config !! key); by rewrite lookup_insert_ne.
Qed.

Lemma apply_defaults_foldl_lookup (config : dict)
    (items : list (string * value)) k :
  NoDup items.*1 →
  foldl (λ config item,
           apply_defaults_step apply_defaults_nested item.1 item.2 config)
        config items !! k =
    match config !! k, (list_to_map items : dict) !! k with
    | Some cv, Some dv => Some (apply_defaults_nested cv dv)
    | Some cv, None => Some cv
    | None, dv => dv
    end.
Proof.
  revert config.
  induction items as [|[key dv] items IH]; intros config; simpl.
  - intros _. rewrite lookup_empty. by destruct (config !! k).
  - intros [Hkey Hnodup]%NoDup_cons.
    rewrite (IH _ Hnodup), apply_defaults_step_lookup.
    destruct (decide (key = k)) as [->|Hne].
    + rewrite lookup_insert_eq.
      assert ((list_to_map items : dict) !! k = None) as ->.
      { by apply not_elem_of_list_to_map_1. }
      by destruct (config !! k).
    + by rewrite lookup_insert_ne.
Qed.

(** X14.  The result does not depend on the order in which [for key in
    defaults] hands out the keys: running the loop body over the items
    of [defaults] in any order gives [apply_defaults config defaults]. *)
Theorem apply_defaults_any_order
    (config defaults : dict) (items : list (string * value)) :
  items ≡ₚ map_to_list defaults →
  foldl (λ config item,
           apply_defaults_step apply_defaults_nested item.1 item.2 config)
        config items =
  apply_defaults config defaults.
Proof.
  intros Hperm.
  assert (NoDup items.*1) as Hnodup.
  { rewrite Hperm. apply NoDup_fst_map_to_list. }
  assert ((list_to_map items : dict) = defaults) as Hitems.
  { rewrite <- (list_to_map_to_list defaults).
    by apply list_to_map_proper. }
  apply map_eq. intros k.
  by rewrite apply_defaults_lookup, apply_defaults_foldl_lookup, Hitems.
Qed.

(** ** apply_defaults: keys and neutral cases *)

(** X15.  The keys afterwards are the keys of the configuration and the
    keys of the defaults, and no others. *)
Theorem apply_defaults_keys (config defaults : dict) :
  dom (apply_defaults config defaults) = dom config ∪ dom defaults.
Proof.
  apply set_eq. intros key.
  rewrite elem_of_union, !elem_of_dom, apply_defaults_lookup.
  unfold is_Some.
  destruct (config !! key) as [cv|], (defaults !! key) as [dv|];
    (split; [intros [x Hx]|intros [[x Hx]|[x Hx]]]); simplify_eq; eauto.
Qed.

(** X16.  Empty defaults change nothing, an empty configuration becomes
    the defaults, and a configuration given as its own defaults stays
    as it is. *)
Theorem apply_defaults_neutral (config : dict) :
  apply_defaults config ∅ = config ∧
  apply_defaults ∅ config = config ∧
  apply_defaults config config = config.
Proof.
  split; [|split]; apply map_eq; intros key; rewrite apply_defaults_lookup.
  - rewrite lookup_empty. by destruct (config !! key).
  - by rewrite lookup_empty.
  - destruct (config !! key) as [cv|]; [|done].
    by rewrite apply_defaults_nested_self.
Qed.

(** ** apply_defaults: paths *)

Lemma apply_defaults_nested_keeps_paths (path : list string) (cv dv : value) :
  is_Some (lookup_path path cv) →
  is_Some (lookup_path path (apply_defaults_nested cv dv)).
Proof.
  revert cv dv.
  induction path as [|key path IH]; intros cv dv; simpl; [by eauto|].
  destruct cv as [| | | |c]; try by intros [? ?].
  destruct dv as [| | | |d]; try done.
  rewrite apply_defaults_nested_dict. simpl. rewrite apply_defaults_lookup.
  destruct (c !! key) as [cv'|]; [|by intros [? ?]].
  destruct (d !! key) as [dv'|]; [apply IH|done].
Qed.

Lemma apply_defaults_nested_brings_paths
    (path : list string) (cv dv v : value) :
  lookup_path path dv = Some v →
  is_Some (lookup_path path (apply_defaults_nested cv dv)) ∨
  ∃ before after blocker,
    path = (before ++ after)%list ∧
    lookup_path before cv = Some blocker ∧
    is_dict blocker = false.
Proof.
  revert cv dv.
  induction path as [|key path IH]; intros cv dv; simpl.
  - intros _. left. eauto.
  - destruct dv as [| | | |d]; try done.
    destruct (d !! key) as [dv'|] eqn:Hd; [|done]. intros Hpath.
    destruct cv as [s|n|b|l|c];
      try (right; by eexists [], (key :: path), _).
    rewrite apply_defaults_nested_dict. simpl. rewrite apply_defaults_lookup, Hd.
    destruct (c !! key) as [cv'|] eqn:Hc.
    + destruct (IH cv' dv' Hpath) as [?|(before & after & blocker & -> & Hb & Hk)];
        [by left|].
      right. exists (key :: before), after, blocker. simpl. by rewrite Hc.
    + left. by rewrite Hpath.
Qed.

(** X17.  No path is lost and none of the defaults is silently dropped:
    every path that leads somewhere in the configuration still does
    afterwards; and every path that leads somewhere in the defaults
    does so in the result, unless the configuration has a value that
    is not a mapping somewhere along it (which is then kept, with the
    defaults below it left out). *)
Theorem apply_defaults_paths (config defaults : dict) (path : list string) :
  (is_Some (lookup_path path (VDict config)) →
   is_Some (lookup_path path (VDict (apply_defaults config defaults)))) ∧
  (is_Some (lookup_path path (VDict defaults)) →
   is_Some (lookup_path path (VDict (apply_defaults config defaults))) ∨
   ∃ before after blocker,
     path = (before ++ after)%list ∧
     lookup_path before (VDict config) = Some blocker ∧
     is_dict blocker = false).
Proof.
  rewrite <- apply_defaults_nested_dict. split.
  - apply apply_defaults_nested_keeps_paths.
  - intros [v Hv]. by eapply apply_defaults_nested_brings_paths.
Qed.

(** ** Folding over a dict, key by key *)

Lemma map_fold_sub_ind {A B} (P : B → gmap string A → Prop)
    (f : string → A → B → B) (b : B) (m0 : gmap string A) :
  P b ∅ →
  (∀ key x m r,
     m !! key = None → m0 !! key = Some x → m ⊆ m0 →
     P r m → P (f key x r) (<[key := x]> m)) →
  P (map_fold f b m0) m0.
Proof.
  intros Hempty Hstep.
  assert (m0 ⊆ m0) as Hsub by done. revert Hsub.
  refine (map_fold_weak_ind (λ r (m : gmap string A), m ⊆ m0 → P r m)
            f b _ _ m0); [done|].
  intros key x m r Hfresh IH Hsub.
  assert (m ⊆ m0) as Hm by (etrans; [by apply insert_subseteq|done]).
  apply Hstep; auto.
  apply (lookup_weaken (<[key := x]> m)); [apply lookup_insert_eq|done].
Qed.

(** ** Layouts *)

Lemma ltree_size_child (children : gmap string ltree) l key t :
  children !! key = Some t → ltree_size t < ltree_size (LNode l children).
Proof.
  simpl. revert key t.
  refine (map_fold_weak_ind
    (λ n (m : gmap string ltree),
       ∀ key t, m !! key = Some t → ltree_size t < S n) _ _ _ _ children).
  - intros key t Hk. by rewrite lookup_empty in Hk.
  - intros i x m n Hi IH key t Hk.
    destruct (decide (i = key)) as [->|Hne].
    + rewrite lookup_insert_eq in Hk. injection Hk as ->. lia.
    + rewrite lookup_insert_ne in Hk by done. specialize (IH key t Hk). lia.
Qed.

Lemma ltree_ind (P : ltree → Prop) :
  (∀ v, P (LData v)) →
  (∀ l children, map_Forall (λ _, P) children → P (LNode l children)) →
  ∀ t, P t.
Proof.
  intros Hdata Hnode t.
  remember (ltree_size t) as n eqn:Hsize. revert t Hsize.
  induction n as [n IH] using lt_wf_ind; intros t ->.
  destruct t as [v|l children]; [done|].
  apply Hnode. intros key t Hkey.
  by eapply IH; [eapply ltree_size_child|].
Qed.

Lemma lval_lmerge tc td : lval (lmerge tc td) = lval tc.
Proof. by destruct tc, td. Qed.

Lemma lmerge_node l chc ld chd :
  lmerge (LNode l chc) (LNode ld chd) =
    LNode l (union_with (λ tc' td', Some (lmerge tc' td')) chc chd).
Proof. reflexivity. Qed.

Lemma lmerge_children_lookup (chc chd : gmap string ltree) key :
  union_with (λ tc' td', Some (lmerge tc' td')) chc chd !! key =
    match chc !! key, chd !! key with
    | Some tc', Some td' => Some (lmerge tc' td')
    | Some tc', None => Some tc'
    | None, td' => td'
    end.
Proof.
  rewrite lookup_union_with.
  by destruct (chc !! key), (chd !! key).
Qed.

Lemma in_tree_lmerge l tc td :
  in_tree l (lmerge tc td) → in_tree l tc ∨ in_tree l td.
Proof.
  revert td. induction tc as [v|lc chc IH] using ltree_ind; intros td.
  - by left.
  - destruct td as [v|ld chd]; [by left|].
    rewrite lmerge_node. inversion 1 as [|? ? key t Hkey Hin]; simplify_eq.
    + left. constructor.
    + rewrite lmerge_children_lookup in Hkey.
      destruct (chc !! key) as [tc'|] eqn:Hc, (chd !! key) as [td'|] eqn:Hd;
        simplify_eq.
      * destruct (IH key tc' Hc td' Hin).
        -- left. by econstructor.
        -- right. by econstructor.
      * left. by econstructor.
      * right. by econstructor.
Qed.

Lemma holds_frame h h' t :
  holds h t →
  (∀ l, in_tree l t → h' !! l = h !! l) →
  holds h' t.
Proof.
  induction 1 as [v Hv|l children Hl Hch IH]; intros Hsame.
  - by constructor.
  - constructor.
    + rewrite Hsame; [done|constructor].
    + intros key t Hkey. apply (IH key t Hkey).
      intros l' Hin. apply Hsame. by econstructor.
Qed.

Lemma erase_lmerge h tc td :
  holds h tc → holds h td →
  erase (lmerge tc td) = apply_defaults_nested (erase tc) (erase td).
Proof.
  intros Hc. revert td.
  induction Hc as [v Hv|lc chc Hl Hch IH]; intros td Hd.
  - simpl. destruct v, (erase td); done.
  - destruct Hd as [v Hv|ld chd Hld Hchd].
    + simpl. by destruct v.
    + rewrite lmerge_node. simpl erase. rewrite apply_defaults_nested_dict.
      f_equal. apply map_eq. intros key.
      rewrite lookup_fmap, lmerge_children_lookup, apply_defaults_lookup,
        !lookup_fmap.
      destruct (chc !! key) as [tc'|] eqn:Hc', (chd !! key) as [td'|] eqn:Hd';
        simpl; try done.
      f_equal. eapply IH; eauto.
Qed.

Lemma covers_refl t : covers t t.
Proof.
  induction t as [v|l children IH] using ltree_ind; [constructor|].
  constructor; [done|]. intros key t td Hkey Hkey'. simplify_eq.
  by apply (IH key).
Qed.

Lemma covers_lmerge tc td : covers (lmerge tc td) td.
Proof.
  revert td. induction tc as [v|lc chc IH] using ltree_ind; intros td.
  - destruct td; constructor.
  - destruct td as [v|ld chd]; [constructor|].
    rewrite lmerge_node. constructor.
    + intros key [td Hkey]. rewrite lmerge_children_lookup, Hkey.
      by destruct (chc !! key).
    + intros key t td. rewrite lmerge_children_lookup. intros Ht Hkey.
      rewrite Hkey in Ht. destruct (chc !! key) as [tc'|] eqn:Hc; simplify_eq.
      * by apply (IH key).
      * apply covers_refl.
Qed.

Lemma lmerge_children_empty (chc : gmap string ltree) :
  lmerge_children chc ∅ = chc.
Proof.
  apply map_eq. intros key. rewrite lmerge_children_lookup, lookup_empty.
  by destruct (chc !! key).
Qed.

Lemma lmerge_children_insert (chc m : gmap string ltree) key td :
  lmerge_children chc (<[key := td]> m) =
    <[key := match chc !! key with
             | Some tc' => lmerge tc' td
             | None => td
             end]> (lmerge_children chc m).
Proof.
  apply map_eq. intros k. destruct (decide (key = k)) as [->|Hne].
  - rewrite lookup_insert_eq, lmerge_children_lookup, lookup_insert_eq.
    by destruct (chc !! k).
  - rewrite lookup_insert_ne, !lmerge_children_lookup, lookup_insert_ne by done.
    done.
Qed.

Lemma lmerge_children_in_tree (chc m : gmap string ltree) key t l :
  lmerge_children chc m !! key = Some t →
  in_tree l t →
  (∃ tc', chc !! key = Some tc' ∧ in_tree l tc') ∨
  (∃ td', m !! key = Some td' ∧ in_tree l td').
Proof.
  rewrite lmerge_children_lookup. intros Hkey Hin.
  destruct (chc !! key) as [tc'|], (m !! key) as [td'|]; simplify_eq; eauto.
  apply in_tree_lmerge in Hin as [?|?]; eauto.
Qed.

Lemma lmerge_data_r tc v : lmerge tc (LData v) = tc.
Proof. by destruct tc. Qed.

Lemma holds_node_inv h l children :
  holds h (LNode l children) →
  h !! l = Some (lval <$> children) ∧
  ∀ key t, children !! key = Some t → holds h t.
Proof. by inversion 1. Qed.

Lemma erase_child_size l (children : gmap string ltree) key t :
  children !! key = Some t →
  value_size (erase t) < value_size (erase (LNode l children)).
Proof.
  intros Hkey. apply (value_size_dict_elem _ key). by rewrite lookup_fmap, Hkey.
Qed.

Lemma check_unchanged_size_ok h l (children : gmap string ltree) :
  h !! l = Some (lval <$> children) →
  check_unchanged_size h l (size (lval <$> children)) = Ok tt.
Proof.
  intros Hl. unfold check_unchanged_size, deref. rewrite Hl. simpl.
  by rewrite Nat.eqb_refl.
Qed.

Lemma holds_in_dom h t l : holds h t → in_tree l t → l ∈ dom h.
Proof.
  induction 1 as [v Hv|l0 children Hl Hch IH]; inversion 1; simplify_eq.
  - apply elem_of_dom. eauto.
  - by eapply IH.
Qed.

Lemma holds_weaken h h' t : holds h t → h ⊆ h' → holds h' t.
Proof.
  intros Ht Hsub. apply (holds_frame h); [done|].
  intros l Hin. apply (holds_in_dom _ _ _ Ht) in Hin as [o Ho]%elem_of_dom.
  rewrite Ho. by eapply lookup_weaken.
Qed.

Lemma load_dict_unfold (d : dict) (h : store) :
  load (VDict d) h =
    let '(children, h) :=
      map_fold (λ key v' (acc : gmap string ltree * store),
                  let '(t, h) := load v' acc.2 in
                  (<[key := t]> acc.1, h)) (∅, h) d in
    let l := fresh (dom h) in
    (LNode l children, <[l := lval <$> children]> h).
Proof. reflexivity. Qed.

Lemma load_spec v h t h' :
  load v h = (t, h') →
  erase t = v ∧ holds h' t ∧ proper t ∧ h ⊆ h' ∧
  (∀ l, in_tree l t → l ∉ dom h).
Proof.
  revert h t h'.
  induction v as [s|n|b|vs _|d IH] using value_ind; intros h t0 h';
    try (intros [= <- <-]; split; [done|]; split; [by constructor|];
         split; [constructor|]; split; [done|inversion 1]).
  rewrite load_dict_unfold.
  match goal with |- context [map_fold ?f ?b d] =>
    assert (let '(children, hm) := map_fold f b d in
            erase <$> children = d ∧
            h ⊆ hm ∧
            (∀ key t, children !! key = Some t →
               holds hm t ∧ proper t ∧ ∀ l, in_tree l t → l ∉ dom h) ∧
            (∀ key1 key2 t1 t2 l,
               key1 ≠ key2 → children !! key1 = Some t1 →
               children !! key2 = Some t2 →
               in_tree l t1 → ¬ in_tree l t2)) as Hfold
  end.
  { refine (map_fold_sub_ind
      (λ (acc : gmap string ltree * store) (m : dict),
         let '(children, hm) := acc in
         erase <$> children = m ∧
         h ⊆ hm ∧
         (∀ key t, children !! key = Some t →
            holds hm t ∧ proper t ∧ ∀ l, in_tree l t → l ∉ dom h) ∧
         (∀ key1 key2 t1 t2 l,
            key1 ≠ key2 → children !! key1 = Some t1 →
            children !! key2 = Some t2 →
            in_tree l t1 → ¬ in_tree l t2)) _ _ d _ _).
    { split; [by rewrite fmap_empty|]. split; [done|].
      split; intros *; by rewrite ?lookup_empty. }
    intros key v' m [children hm] Hfresh Hkey Hsub (Herase & Hh & Hch & Hsib).
    simpl. destruct (load v' hm) as [t1 hm'] eqn:Hload.
    destruct (IH key v' Hkey _ _ _ Hload)
      as (Herase1 & Hholds1 & Hproper1 & Hsub1 & Hfresh1).
    split; [by rewrite fmap_insert, Herase, Herase1|].
    split; [by etrans|].
    assert (∀ k t l, children !! k = Some t → in_tree l t → ¬ in_tree l t1)
      as Hold_new.
    { intros k t l Hk Hin Hin1. apply (Hfresh1 l Hin1).
      destruct (Hch k t Hk) as (Ht & _). by eapply holds_in_dom. }
    split.
    - intros k t. destruct (decide (key = k)) as [->|Hne].
      + rewrite lookup_insert_eq. intros [= <-]. repeat split; try done.
        intros l Hin Hdom. apply (Hfresh1 l Hin).
        by eapply (subseteq_dom h hm).
      + rewrite lookup_insert_ne by done. intros Hk.
        destruct (Hch k t Hk) as (Ht & Hp & Hf).
        repeat split; try done. by eapply holds_weaken.
    - intros key1 key2 ta tb l Hne.
      destruct (decide (key = key1)) as [<-|Hne1];
        destruct (decide (key = key2)) as [<-|Hne2]; try done.
      + rewrite lookup_insert_eq, lookup_insert_ne by done.
        intros [= <-] Hb Hin Hin'. by eapply Hold_new.
      + rewrite lookup_insert_eq, lookup_insert_ne by done.
        intros Ha [= <-] Hin Hin'. by eapply Hold_new.
      + rewrite !lookup_insert_ne by done. apply Hsib. done. }
  destruct (map_fold _ _ d) as [children hm].
  destruct Hfold as (Herase & Hh & Hch & Hsib).
  set (l := fresh (dom hm)). intros [= <- <-].
  assert (l ∉ dom hm) as Hl by apply is_fresh.
  assert (∀ key t, children !! key = Some t → ¬ in_tree l t) as Hroot.
  { intros key t Hkey Hin. apply Hl.
    destruct (Hch key t Hkey) as (Ht & _). by eapply holds_in_dom. }
  split; [by rewrite <- Herase|]. split; [|split; [|split]].
  - constructor; [by rewrite lookup_insert_eq|].
    intros key t Hkey. destruct (Hch key t Hkey) as (Ht & _).
    apply (holds_frame hm); [done|]. intros l' Hin.
    apply lookup_insert_ne. intros <-. by eapply Hroot.
  - constructor; [|done..]. intros key t Hkey. by destruct (Hch key t Hkey) as (_ & ? & _).
  - etrans; [done|]. apply insert_subseteq. by apply not_elem_of_dom.
  - intros l'. inversion 1 as [|? ? key t Hkey Hin]; simplify_eq.
    + intros Hdom. apply Hl. by eapply (subseteq_dom h hm).
    + destruct (Hch key t Hkey) as (_ & _ & Hf). by apply Hf.
Qed.

Lemma reads_functional h pv v1 v2 : reads h pv v1 → reads h pv v2 → v1 = v2.
Proof.
  intros (t1 & <- & Ht1 & <-) (t2 & Hval & Ht2 & <-).
  revert t2 Hval Ht2.
  induction Ht1 as [v Hv|l ch1 Hl Hch IH]; intros t2 Hval Ht2.
  - destruct t2; by simplify_eq/=.
  - destruct Ht2 as [v Hv|l2 ch2 Hl2 Hch2]; simplify_eq/=.
    f_equal. apply map_eq. intros key.
    assert ((lval <$> ch1) !! key = (lval <$> ch2) !! key) as Hkey by congruence.
    rewrite !lookup_fmap in Hkey. rewrite !lookup_fmap.
    destruct (ch1 !! key) as [t1|] eqn:H1, (ch2 !! key) as [t2|] eqn:H2;
      simplify_eq/=; [|done].
    f_equal. eapply IH; eauto.
Qed.

Lemma load_dict_node (d : dict) h t h' :
  load (VDict d) h = (t, h') → ∃ l children, t = LNode l children.
Proof.
  rewrite load_dict_unfold. destruct (map_fold _ _ d) as [children hm].
  intros [= <- <-]. eauto.
Qed.

(** ** apply_defaults in place: runs *)

(** Once every key of the defaults is in the configuration, at every pair
    of dicts the recursion visits, a run changes nothing. *)
Lemma apply_defaults_in_place_noop depth h l ch ld chd :
  holds h (LNode l ch) →
  holds h (LNode ld chd) →
  covers (LNode l ch) (LNode ld chd) →
  (value_size (erase (LNode ld chd)) ≤ depth)%nat →
  InPlace.apply_defaults depth l ld h = Ok h.
Proof.
  revert h l ch ld chd.
  induction depth as [|depth IH]; intros h l ch ld chd Hc Hd Hcov Hdepth.
  { simpl in Hdepth. lia. }
  destruct (holds_node_inv _ _ _ Hc) as [Hl Hch].
  destruct (holds_node_inv _ _ _ Hd) as [Hld Hchd].
  inversion Hcov as [| |? ? ? ? Hkeys Hsub]; subst.
  simpl. unfold deref at 1. rewrite Hld. simpl.
  match goal with |- rbind ?fold _ = _ => assert (fold = Ok h) as -> end.
  { refine (map_fold_sub_ind (λ r _, r = Ok h) _ _ _ _ _); [done|].
    intros key pv m r _ Hkey _ ->.
    apply lookup_fmap_Some in Hkey as (td & <- & Hkey).
    destruct (Hkeys key) as [t Ht]; [by eexists|].
    unfold InPlace.apply_defaults_iter. simpl.
    rewrite (check_unchanged_size_ok _ _ _ Hld). simpl.
    unfold deref. rewrite Hl, Hld. simpl.
    rewrite lookup_fmap, Ht. simpl.
    unfold py_dict_getitem. rewrite lookup_fmap, Hkey. simpl.
    destruct t as [v|l' ch'], td as [v'|ld' chd']; simpl; try done.
    eapply IH; eauto.
    pose proof (erase_child_size ld chd key _ Hkey). lia. }
  simpl. by rewrite (check_unchanged_size_ok _ _ _ Hld).
Qed.

(** On a configuration that is a tree of its own, sharing no dict with the
    defaults, a run turns the configuration into the merged tree and
    writes to the configuration's dicts only. *)
Lemma apply_defaults_in_place_run depth h lc chc ld chd :
  proper (LNode lc chc) →
  holds h (LNode lc chc) →
  holds h (LNode ld chd) →
  (∀ l, in_tree l (LNode lc chc) → ¬ in_tree l (LNode ld chd)) →
  (value_size (erase (LNode ld chd)) ≤ depth)%nat →
  ∃ h', InPlace.apply_defaults depth lc ld h = Ok h' ∧
        holds h' (lmerge (LNode lc chc) (LNode ld chd)) ∧
        (∀ l, ¬ in_tree l (LNode lc chc) → h' !! l = h !! l).
Proof.
  revert h lc chc ld chd.
  induction depth as [|depth IH];
    intros h lc chc ld chd Hproper Hc Hd Hdisj Hdepth.
  { simpl in Hdepth. lia. }
  destruct (holds_node_inv _ _ _ Hc) as [Hlc Hchc].
  destruct (holds_node_inv _ _ _ Hd) as [Hld Hchd].
  inversion Hproper as [|? ? Hprop Hroot Hsib]; subst.
  assert (¬ in_tree ld (LNode lc chc)) as Hld_out.
  { intros Hin. apply (Hdisj ld Hin). constructor. }
  assert (∀ key td l, chd !! key = Some td → in_tree l td →
            ¬ in_tree l (LNode lc chc)) as Htd_out.
  { intros key td l Hkey Hin Hin'. apply (Hdisj l Hin'). by econstructor. }
  simpl. unfold deref at 1. rewrite Hld. simpl. rewrite map_fold_fmap.
  match goal with |- ∃ h', rbind ?fold _ = _ ∧ _ =>
    assert (∃ hm, fold = Ok hm ∧
              holds hm (LNode lc (lmerge_children chc chd)) ∧
              (∀ l, ¬ in_tree l (LNode lc chc) → hm !! l = h !! l))
      as (hm & -> & Hholds & Hframe)
  end.
  2: { exists hm. simpl.
       rewrite check_unchanged_size_ok by (by rewrite Hframe). done. }
  unfold compose.
  refine (map_fold_sub_ind (λ r m,
            ∃ hm, r = Ok hm ∧
              holds hm (LNode lc (lmerge_children chc m)) ∧
              (∀ l, ¬ in_tree l (LNode lc chc) → hm !! l = h !! l))
            _ (Ok h) chd _ _).
  { exists h. by rewrite lmerge_children_empty. }
  intros key td m r Hfresh Hkey Hsub (hm & -> & Hholds & Hframe).
  destruct (holds_node_inv _ _ _ Hholds) as [Hm_lc Hm_ch].
  assert (hm !! ld = Some (lval <$> chd)) as Hm_ld by (by rewrite Hframe).
  assert (holds hm td) as Hm_td.
  { apply (holds_frame h); [by eapply Hchd|].
    intros l Hin. apply Hframe. by eapply Htd_out. }
  assert (lmerge_children chc m !! key = chc !! key) as Hm_key.
  { rewrite lmerge_children_lookup, Hfresh. by destruct (chc !! key). }
  assert (∀ k t l, k ≠ key → lmerge_children chc m !! k = Some t →
            in_tree l t →
            l ≠ lc ∧ ∀ tc', chc !! key = Some tc' → ¬ in_tree l tc')
    as Hothers.
  { intros k t l Hne Hk Hin.
    destruct (lmerge_children_in_tree _ _ _ _ _ Hk Hin)
      as [(tk & Hck & Hink)|(tk & Hmk & Hink)].
    - split.
      + intros ->. by eapply Hroot.
      + intros tc' Hc'. by eapply (Hsib k key).
    - assert (chd !! k = Some tk) as Hdk by (by eapply lookup_weaken).
      split.
      + intros ->. eapply Htd_out; [done..|constructor].
      + intros tc' Hc' Hin'. eapply Htd_out; [done..|by econstructor]. }
  unfold InPlace.apply_defaults_iter. simpl.
  rewrite (check_unchanged_size_ok _ _ _ Hm_ld). simpl.
  unfold deref. rewrite Hm_lc, Hm_ld. simpl.
  rewrite lookup_fmap, Hm_key, lmerge_children_insert.
  unfold py_dict_getitem. rewrite lookup_fmap, Hkey. simpl.
  destruct (chc !! key) as [tc'|] eqn:Hc'; simpl.
  - (* the key is there *)
    assert (holds hm tc') as Hm_tc by (by apply (Hm_ch key); rewrite Hm_key).
    assert (∃ h', match lval tc', lval td with
                  | PRef c', PRef d' => InPlace.apply_defaults depth c' d' hm
                  | _, _ => Ok hm
                  end = Ok h' ∧ holds h' (lmerge tc' td) ∧
                  (∀ l, ¬ in_tree l tc' → h' !! l = hm !! l))
      as (h' & -> & Hmerged & Hframe').
    { destruct tc' as [v|c' chc'], td as [v'|d' chd']; simpl;
        try (by exists hm).
      apply IH; auto.
      - by eapply Hprop.
      - intros l Hin Hin'.
        eapply Htd_out; [done..|by econstructor].
      - pose proof (erase_child_size ld chd key _ Hkey). lia. }
    exists h'. split; [done|]. split.
    + constructor.
      * rewrite Hframe' by (by eapply Hroot). rewrite Hm_lc. f_equal.
        rewrite fmap_insert, lval_lmerge. symmetry. apply insert_id.
        by rewrite lookup_fmap, Hm_key.
      * intros k t Hk. destruct (decide (key = k)) as [->|Hne].
        -- rewrite lookup_insert_eq in Hk. by injection Hk as <-.
        -- rewrite lookup_insert_ne in Hk by done.
           apply (holds_frame hm); [by eapply Hm_ch|].
           intros l Hin. apply Hframe'.
           by eapply (Hothers k t l).
    + intros l Hout. rewrite Hframe'; [by apply Hframe|].
      intros Hin. apply Hout. by econstructor.
  - (* the key is missing *)
    eexists. split; [done|]. split.
    + constructor.
      * by rewrite lookup_insert_eq, fmap_insert.
      * intros k t Hk.
        assert (holds hm t ∧ ¬ in_tree lc t) as [Ht Hlc_out].
        { destruct (decide (key = k)) as [->|Hne].
          - rewrite lookup_insert_eq in Hk. injection Hk as <-.
            split; [done|]. intros Hin.
            eapply Htd_out; [done..|constructor].
          - rewrite lookup_insert_ne in Hk by done.
            split; [by eapply Hm_ch|]. intros Hin.
            by destruct (Hothers k t lc). }
        apply (holds_frame hm); [done|]. intros l Hin.
        apply lookup_insert_ne. by intros <-.
    + intros l Hout. rewrite lookup_insert_ne; [by apply Hframe|].
      intros <-. apply Hout. constructor.
Qed.

(** ** apply_defaults in place: two trees that were built apart *)

Lemma holds_erase_dict h t (d : dict) :
  holds h t → erase t = VDict d →
  ∃ l children, t = LNode l children ∧ erase <$> children = d.
Proof.
  intros [v Hv|l children Hl Hch]; simpl.
  - intros ->. done.
  - intros [= <-]. eauto.
Qed.

(** A configuration and a tree of defaults built one after the other, as
    separate objects: the run returns, the configuration is then laid
    out as the merge of the two layouts and has every key of the defaults
    wherever the recursion goes, the defaults are where they were, and
    only dicts of the configuration were written. *)
Lemma apply_defaults_in_place_loaded
    (config defaults : dict) h_init tc h0 td h depth :
  load (VDict config) h_init = (tc, h0) →
  load (VDict defaults) h0 = (td, h) →
  (value_size (VDict defaults) ≤ depth)%nat →
  ∃ c chc d chd h1,
    tc = LNode c chc ∧ td = LNode d chd ∧
    erase <$> chc = config ∧ erase <$> chd = defaults ∧
    InPlace.apply_defaults depth c d h = Ok h1 ∧
    holds h1 (lmerge tc td) ∧
    holds h1 td ∧
    erase (lmerge tc td) = VDict (apply_defaults config defaults) ∧
    (∀ l, ¬ in_tree l tc → h1 !! l = h !! l).
Proof.
  intros Hc Hd Hdepth.
  destruct (load_spec _ _ _ _ Hc) as (Hec & Hhc & Hpc & Hsub0 & Hfc).
  destruct (load_spec _ _ _ _ Hd) as (Hed & Hhd & Hpd & Hsub & Hfd).
  destruct (holds_erase_dict _ _ _ Hhc Hec) as (c & chc & -> & Hchc).
  destruct (holds_erase_dict _ _ _ Hhd Hed) as (d & chd & -> & Hchd).
  assert (holds h (LNode c chc)) as Hhc' by (by eapply holds_weaken).
  assert (∀ l, in_tree l (LNode c chc) → ¬ in_tree l (LNode d chd)) as Hdisj.
  { intros l Hin Hin'. apply (Hfd l Hin'). by eapply holds_in_dom. }
  destruct (apply_defaults_in_place_run depth h c chc d chd)
    as (h1 & Hrun & Hm & Hframe); [done..|by rewrite Hed|].
  exists c, chc, d, chd, h1. do 5 (split; [done|]). split; [done|].
  split; [|split; [|done]].
  - apply (holds_frame h); [done|]. intros l Hin. apply Hframe.
    intros Hin'. by eapply Hdisj.
  - by rewrite (erase_lmerge h), Hec, Hed.
Qed.

(** X18.  The run in place does what [apply_defaults] on the trees says.
    On a configuration and defaults built as separate objects it
    returns, the configuration then reads as [apply_defaults config
    defaults], the defaults read as before, and nothing but dicts of
    the configuration was written. *)
Theorem apply_defaults_in_place_refines
    (config defaults : dict) h_init tc h0 td h depth :
  load (VDict config) h_init = (tc, h0) →
  load (VDict defaults) h0 = (td, h) →
  (value_size (VDict defaults) ≤ depth)%nat →
  ∃ c d h1,
    lval tc = PRef c ∧ lval td = PRef d ∧
    InPlace.apply_defaults depth c d h = Ok h1 ∧
    reads h1 (PRef c) (VDict (apply_defaults config defaults)) ∧
    reads h1 (PRef d) (VDict defaults) ∧
    (∀ l, ¬ in_tree l tc → h1 !! l = h !! l).
Proof.
  intros Hc Hd Hdepth.
  destruct (load_spec _ _ _ _ Hd) as (Hed & _).
  destruct (apply_defaults_in_place_loaded _ _ _ _ _ _ _ _ Hc Hd Hdepth)
    as (c & chc & d & chd & h1 & -> & -> & _ & _ & Hrun & Hm & Hd1 & He & Hframe).
  exists c, d, h1. do 3 (split; [done|]). split; [|split; [|done]].
  - by exists (lmerge (LNode c chc) (LNode d chd)).
  - by exists (LNode d chd).
Qed.

(** X19.  [config[key] = defaults[key]] copies no dict: under a key the
    configuration lacked and the defaults hold a mapping, the two
    dicts hold the same reference afterwards, so the configuration
    shares that mapping with the defaults. *)
Theorem apply_defaults_in_place_shares
    (config defaults : dict) h_init tc h0 td h depth :
  load (VDict config) h_init = (tc, h0) →
  load (VDict defaults) h0 = (td, h) →
  (value_size (VDict defaults) ≤ depth)%nat →
  ∃ c d h1 oc od,
    lval tc = PRef c ∧ lval td = PRef d ∧
    InPlace.apply_defaults depth c d h = Ok h1 ∧
    h1 !! c = Some oc ∧ h1 !! d = Some od ∧
    ∀ key dd, config !! key = None → defaults !! key = Some (VDict dd) →
      ∃ l, oc !! key = Some (PRef l) ∧ od !! key = Some (PRef l).
Proof.
  intros Hc Hd Hdepth.
  destruct (apply_defaults_in_place_loaded _ _ _ _ _ _ _ _ Hc Hd Hdepth)
    as (c & chc & d & chd & h1 & -> & -> & Hchc & Hchd & Hrun & Hm & Hd1 & _).
  rewrite lmerge_node in Hm.
  destruct (holds_node_inv _ _ _ Hm) as [Hoc _].
  destruct (holds_node_inv _ _ _ Hd1) as [Hod Hchildren].
  exists c, d, h1, (lval <$> lmerge_children chc chd), (lval <$> chd).
  do 5 (split; [done|]).
  intros key dd Hkc Hkd.
  rewrite <- Hchc, lookup_fmap in Hkc. rewrite <- Hchd, lookup_fmap in Hkd.
  destruct (chc !! key) as [?|] eqn:Hck; [done|].
  destruct (chd !! key) as [t|] eqn:Hdk; [|done].
  injection Hkd as Ht.
  destruct (holds_erase_dict _ _ _ (Hchildren _ _ Hdk) Ht) as (l & ch & -> & _).
  exists l. by rewrite !lookup_fmap, lmerge_children_lookup, Hck, Hdk.
Qed.

(** X20.  Applying the same defaults once more, in place, returns and
    writes nothing: the store after the second run is the store after
    the first. *)
Theorem apply_defaults_in_place_twice
    (config defaults : dict) h_init tc h0 td h depth :
  load (VDict config) h_init = (tc, h0) →
  load (VDict defaults) h0 = (td, h) →
  (value_size (VDict defaults) ≤ depth)%nat →
  ∃ c d h1,
    lval tc = PRef c ∧ lval td = PRef d ∧
    InPlace.apply_defaults depth c d h = Ok h1 ∧
    InPlace.apply_defaults depth c d h1 = Ok h1.
Proof.
  intros Hc Hd Hdepth.
  destruct (load_spec _ _ _ _ Hd) as (Hed & _).
  destruct (apply_defaults_in_place_loaded _ _ _ _ _ _ _ _ Hc Hd Hdepth)
    as (c & chc & d & chd & h1 & -> & -> & _ & _ & Hrun & Hm & Hd1 & _).
  exists c, d, h1. do 3 (split; [done|]).
  pose proof (covers_lmerge (LNode c chc) (LNode d chd)) as Hcov.
  rewrite lmerge_node in Hm, Hcov.
  eapply apply_defaults_in_place_noop; [done..|by rewrite Hed].
Qed.

(** X21.  A tree applied to itself, the same object as configuration and
    as defaults, is left as it is. *)
Theorem apply_defaults_in_place_self (config : dict) h_init tc h depth :
  load (VDict config) h_init = (tc, h) →
  (value_size (VDict config) ≤ depth)%nat →
  ∃ c, lval tc = PRef c ∧ InPlace.apply_defaults depth c c h = Ok h.
Proof.
  intros Hc Hdepth.
  destruct (load_spec _ _ _ _ Hc) as (Hec & Hhc & _).
  destruct (holds_erase_dict _ _ _ Hhc Hec) as (c & chc & -> & Hchc).
  exists c. split; [done|].
  eapply apply_defaults_in_place_noop; [done..|apply covers_refl|by rewrite Hec].
Qed.

(** ** apply_defaults in place: dicts that contain themselves *)

Lemma apply_defaults_in_place_cyclic_run
    (h : store) (c d : loc) (key : string) (oc : pydict) (depth : nat) :
  h !! d = Some {[ key := PRef d ]} →
  h !! c = Some oc →
  oc !! key = Some (PRef c) →
  InPlace.apply_defaults depth c d h = Raise RecursionError.
Proof.
  intros Hd Hc Hkey. induction depth as [|depth IH]; [done|].
  simpl. unfold deref at 1. rewrite Hd. simpl.
  rewrite map_fold_singleton.
  unfold InPlace.apply_defaults_iter. simpl.
  unfold check_unchanged_size, deref. rewrite Hd, Hc. simpl.
  rewrite map_size_singleton. simpl.
  rewrite Hkey. unfold py_dict_getitem. rewrite lookup_singleton_eq. simpl.
  by rewrite IH.
Qed.

(** X22.  When the configuration holds itself under a key and the defaults
    are a dict that holds itself under that key and nothing else, the
    recursion never ends by itself: whatever is left of the recursion
    limit, the run raises [RecursionError]. *)
Theorem apply_defaults_in_place_cyclic
    (h : store) (c d : loc) (key : string) (oc : pydict) (depth : nat) :
  h !! d = Some {[ key := PRef d ]} →
  h !! c = Some oc →
  oc !! key = Some (PRef c) →
  InPlace.apply_defaults depth c d h = Raise RecursionError.
Proof. apply apply_defaults_in_place_cyclic_run. Qed.

(** X23.  When the configuration holds the defaults' own dict under a key,
    and under that key the defaults hold a third dict with one other
    key, the recursive call writes that key into the defaults while
    the loop over them is running, and the loop's next step raises
    [RuntimeError] (dictionary changed size during iteration). *)
Theorem apply_defaults_in_place_changes_defaults
    (h : store) (c d e : loc) (key other : string) (oc : pydict) (pv : pyval)
    (depth : nat) :
  h !! d = Some {[ key := PRef e ]} →
  h !! e = Some {[ other := pv ]} →
  h !! c = Some oc →
  oc !! key = Some (PRef d) →
  d ≠ e → key ≠ other →
  InPlace.apply_defaults (S (S depth)) c d h = Raise RuntimeError.
Proof.
  intros Hd He Hc Hkey Hde Hne.
  cbn [InPlace.apply_defaults]. unfold deref at 1. rewrite Hd. cbn [rbind].
  rewrite map_fold_singleton.
  unfold InPlace.apply_defaults_iter at 1. cbn [rbind].
  unfold check_unchanged_size at 1, deref. rewrite Hd, Hc. cbn [rbind].
  rewrite map_size_singleton. cbn [Nat.eqb rbind].
  rewrite Hkey. unfold py_dict_getitem at 1. rewrite lookup_singleton_eq.
  cbn [rbind]. rewrite He. cbn [rbind].
  rewrite map_fold_singleton.
  unfold InPlace.apply_defaults_iter. cbn [rbind].
  unfold check_unchanged_size at 1, deref. rewrite He, Hd. cbn [rbind].
  rewrite map_size_singleton. cbn [Nat.eqb rbind].
  rewrite lookup_singleton_ne by done.
  unfold py_dict_getitem. rewrite lookup_singleton_eq. cbn [rbind].
  unfold check_unchanged_size, deref.
  rewrite lookup_insert_ne, He by done. cbn [rbind].
  rewrite map_size_singleton. cbn [Nat.eqb rbind].
  rewrite lookup_insert_eq. cbn [rbind].
  rewrite map_size_insert_None by (by apply lookup_singleton_ne).
  by rewrite map_size_singleton.
Qed.

(** ** apply_defaults in place: a configuration reachable from the defaults *)

(** X24.  Applying the same defaults twice is not always applying them
    once.  When the empty dict the configuration holds under [key] is
    also what the defaults hold under [key] and then [inner], the
    first run returns, having stored that dict in itself, and every
    later run with the same arguments raises [RecursionError]. *)
Theorem apply_defaults_in_place_shared_then_cyclic
    (h : store) (c d y m : loc) (key inner : string) (oc : pydict)
    (depth : nat) :
  h !! c = Some oc →
  oc !! key = Some (PRef y) →
  h !! y = Some ∅ →
  h !! d = Some {[ key := PRef m ]} →
  h !! m = Some {[ inner := PRef y ]} →
  InPlace.apply_defaults (S (S depth)) c d h =
    Ok (<[y := {[ inner := PRef y ]}]> h) ∧
  ∀ depth', InPlace.apply_defaults depth' c d
              (<[y := {[ inner := PRef y ]}]> h) = Raise RecursionError.
Proof.
  intros Hc Hkey Hy Hd Hm.
  assert (c ≠ y) as Hcy.
  { intros ->. rewrite Hy in Hc. apply (inj Some) in Hc. subst oc.
    by rewrite lookup_empty in Hkey. }
  assert (d ≠ y) as Hdy.
  { intros ->. rewrite Hy in Hd. apply (inj Some) in Hd.
    apply (f_equal (λ o : pydict, o !! key)) in Hd.
    by rewrite lookup_empty, lookup_singleton_eq in Hd. }
  assert (m ≠ y) as Hmy.
  { intros ->. rewrite Hy in Hm. apply (inj Some) in Hm.
    apply (f_equal (λ o : pydict, o !! inner)) in Hm.
    by rewrite lookup_empty, lookup_singleton_eq in Hm. }
  split.
  - cbn [InPlace.apply_defaults]. unfold deref at 1. rewrite Hd. cbn [rbind].
    rewrite map_fold_singleton.
    unfold InPlace.apply_defaults_iter at 1. cbn [rbind].
    unfold check_unchanged_size at 1, deref. rewrite Hd, Hc. cbn [rbind].
    rewrite map_size_singleton. cbn [Nat.eqb rbind].
    rewrite Hkey. unfold py_dict_getitem at 1. rewrite lookup_singleton_eq.
    cbn [rbind]. rewrite Hm. cbn [rbind].
    rewrite map_fold_singleton.
    unfold InPlace.apply_defaults_iter. cbn [rbind].
    unfold check_unchanged_size at 1, deref. rewrite Hm, Hy. cbn [rbind].
    rewrite map_size_singleton. cbn [Nat.eqb rbind].
    rewrite lookup_empty.
    unfold py_dict_getitem. rewrite lookup_singleton_eq. cbn [rbind].
    unfold check_unchanged_size, deref.
    rewrite lookup_insert_ne, Hm by done. cbn [rbind].
    rewrite map_size_singleton. cbn [Nat.eqb rbind].
    rewrite lookup_insert_ne, Hd by done. cbn [rbind].
    rewrite map_size_singleton. cbn [Nat.eqb rbind].
    by rewrite insert_empty.
  - set (h1 := <[y := {[ inner := PRef y ]}]> h).
    assert (h1 !! y = Some {[ inner := PRef y ]}) as Hy1
      by apply lookup_insert_eq.
    assert (h1 !! c = Some oc) as Hc1 by (by unfold h1; rewrite lookup_insert_ne).
    assert (h1 !! d = Some {[ key := PRef m ]}) as Hd1
      by (by unfold h1; rewrite lookup_insert_ne).
    assert (h1 !! m = Some {[ inner := PRef y ]}) as Hm1
      by (by unfold h1; rewrite lookup_insert_ne).
    assert (∀ n, InPlace.apply_defaults n y y h1 = Raise RecursionError)
      as Hloop.
    { intros n. apply (apply_defaults_in_place_cyclic_run _ _ _ inner
                         {[ inner := PRef y ]}); [done..|].
      apply lookup_singleton_eq. }
    assert (∀ n, InPlace.apply_defaults n y m h1 = Raise RecursionError)
      as Hinner.
    { intros [|n]; [done|].
      cbn [InPlace.apply_defaults]. unfold deref at 1. rewrite Hm1. cbn [rbind].
      rewrite map_fold_singleton.
      unfold InPlace.apply_defaults_iter. cbn [rbind].
      unfold check_unchanged_size at 1, deref. rewrite Hm1, Hy1. cbn [rbind].
      rewrite map_size_singleton. cbn [Nat.eqb rbind].
      rewrite lookup_singleton_eq.
      unfold py_dict_getitem. rewrite lookup_singleton_eq. cbn [rbind].
      by rewrite Hloop. }
    intros [|n]; [done|].
    cbn [InPlace.apply_defaults]. unfold deref at 1. rewrite Hd1. cbn [rbind].
    rewrite map_fold_singleton.
    unfold InPlace.apply_defaults_iter. cbn [rbind].
    unfold check_unchanged_size at 1, deref. rewrite Hd1, Hc1. cbn [rbind].
    rewrite map_size_singleton. cbn [Nat.eqb rbind].
    rewrite Hkey. unfold py_dict_getitem. rewrite lookup_singleton_eq.
    cbn [rbind]. by rewrite Hinner.
Qed.

(** ** Validation after apply_defaults *)

(** What [apply_defaults] can make of a value of the configuration: the
    value itself, or its merge with some default. *)
Lemma apply_defaults_lookup_grown (config defaults : dict) key cv :
  config !! key = Some cv →
  ∃ cv', apply_defaults config defaults !! key = Some cv' ∧
         (cv' = cv ∨ ∃ dv, cv' = apply_defaults_nested cv dv).
Proof.
  intros Hkey. rewrite apply_defaults_lookup, Hkey.
  destruct (defaults !! key) as [dv|]; eauto.
Qed.

Lemma apply_defaults_nested_dict_grown (c : dict) dv key cv :
  c !! key = Some cv →
  ∃ c' cv', apply_defaults_nested (VDict c) dv = VDict c' ∧
            c' !! key = Some cv' ∧
            (cv' = cv ∨ ∃ dv', cv' = apply_defaults_nested cv dv').
Proof.
  intros Hkey. destruct dv as [| | | |d]; try (exists c, cv; by auto).
  rewrite apply_defaults_nested_dict.
  destruct (apply_defaults_lookup_grown c d key cv Hkey) as (cv' & ? & ?).
  by exists (apply_defaults c d), cv'.
Qed.

(** A membership test that passed still passes on the merged value, and
    one that returned still returns. *)
Lemma py_in_apply_defaults_nested key cv cv' b :
  cv' = cv ∨ (∃ dv, cv' = apply_defaults_nested cv dv) →
  py_in key cv = Ok b →
  ∃ b', py_in key cv' = Ok b' ∧ (b = true → b' = true).
Proof.
  intros [->|[dv ->]] Hin; [by eauto|].
  destruct cv as [| | | |c], dv as [| | | |d]; try (by eauto).
  rewrite apply_defaults_nested_dict. simpl in *. injection Hin as <-.
  eexists. split; [done|].
  intros [v Hv]%bool_decide_eq_true. apply bool_decide_eq_true.
  rewrite apply_defaults_lookup, Hv. destruct (d !! key); eauto.
Qed.

Lemma py_in_apply_defaults_nested_true key cv cv' :
  cv' = cv ∨ (∃ dv, cv' = apply_defaults_nested cv dv) →
  py_in key cv = Ok true →
  py_in key cv' = Ok true.
Proof.
  intros Hgrown Hin.
  destruct (py_in_apply_defaults_nested _ _ _ _ Hgrown Hin) as (b' & Hin' & Hb).
  by rewrite Hin', Hb.
Qed.

(** A value that is not a string stays one, and a string stays the
    string it is. *)
Lemma call_validate_object_reference_grown (H : Host) cv cv' s :
  cv' = cv ∨ (∃ dv, cv' = apply_defaults_nested cv dv) →
  call_validate_object_reference H cv' s = call_validate_object_reference H cv s.
Proof.
  intros [->|[dv ->]]; [done|]. by destruct cv, dv.
Qed.

Lemma append_if_missing_grown key cv cv' msg log1 log1' log2 :
  cv' = cv ∨ (∃ dv, cv' = apply_defaults_nested cv dv) →
  append_if_missing key cv msg log1 = Ok log1' →
  log2 `sublist_of` log1 →
  ∃ log2', append_if_missing key cv' msg log2 = Ok log2' ∧
           log2' `sublist_of` log1'.
Proof.
  intros Hgrown (b & Hin & ->)%append_if_missing_Ok Hsub.
  destruct (py_in_apply_defaults_nested _ _ _ _ Hgrown Hin) as (b' & Hin' & Hb).
  unfold append_if_missing. rewrite Hin'. simpl. eexists. split; [done|].
  destruct b.
  - by rewrite Hb.
  - destruct b'; [by apply sublist_inserts_r|by apply sublist_app].
Qed.

(** What a valid verdict says about the configuration, before and
    after the defaults were applied. *)
Lemma valid_config_after_apply_defaults
    (config defaults : dict) errors warnings :
  validate_flower_toml_fields config = Ok (true, errors, warnings) →
  ∃ project fl components project' fl' components',
    config !! "project" = Some project ∧
    config !! "flower" = Some (VDict fl) ∧
    fl !! "components" = Some components ∧
    apply_defaults config defaults !! "project" = Some project' ∧
    apply_defaults config defaults !! "flower" = Some (VDict fl') ∧
    fl' !! "components" = Some components' ∧
    (project' = project ∨ ∃ dv, project' = apply_defaults_nested project dv) ∧
    (components' = components ∨
     ∃ dv, components' = apply_defaults_nested components dv) ∧
    py_in "name" project = Ok true ∧
    py_in "version" project = Ok true ∧
    py_in "serverapp" components = Ok true ∧
    py_in "clientapp" components = Ok true.
Proof.
  intros Hret.
  destruct (validate_flower_toml_fields_valid_inv _ _ _ Hret)
    as (-> & project & fl & components & Hproject & Hname & Hversion
          & Hflower & Hcomponents & Hserver & Hclient).
  destruct (apply_defaults_lookup_grown _ defaults _ _ Hproject)
    as (project' & Hproject' & Hpg).
  destruct (apply_defaults_lookup_grown _ defaults _ _ Hflower)
    as (flower' & Hflower' & Hfg).
  assert (∃ fl' components',
            flower' = VDict fl' ∧ fl' !! "components" = Some components' ∧
            (components' = components ∨
             ∃ dv, components' = apply_defaults_nested components dv))
    as (fl' & components' & -> & Hcomponents' & Hcg).
  { destruct Hfg as [->|[dv ->]]; [by exists fl, components; auto|].
    by apply apply_defaults_nested_dict_grown. }
  by exists project, fl, components, project', fl', components'.
Qed.

(** X25.  Defaults never invalidate a configuration.  If the structural
    validator accepts a configuration, it accepts the configuration
    with any defaults applied, without error and with no warning that
    was not there before. *)
Theorem apply_defaults_keeps_structure_valid
    (config defaults : dict) errors warnings :
  validate_flower_toml_fields config = Ok (true, errors, warnings) →
  ∃ warnings',
    validate_flower_toml_fields (apply_defaults config defaults) =
      Ok (true, [], warnings') ∧
    warnings' `sublist_of` warnings.
Proof.
  intros Hret.
  destruct (valid_config_after_apply_defaults _ defaults _ _ Hret)
    as (project & fl & components & project' & fl' & components'
          & Hproject & Hflower & Hcomponents & Hproject' & Hflower'
          & Hcomponents' & Hpg & Hcg & Hname & Hversion & Hserver & Hclient).
  unfold validate_flower_toml_fields in Hret. rewrite Hproject in Hret.
  apply rbind_Ok in Hret as ([errors0 warnings0] & Hp & Hret).
  apply rbind_Ok in Hret as (errors1 & _ & Hret).
  injection Hret as _ _ ->.
  apply rbind_Ok in Hp as (e1 & _ & Hp).
  apply rbind_Ok in Hp as (e2 & _ & Hp).
  apply rbind_Ok in Hp as (w1 & Hd & Hp).
  apply rbind_Ok in Hp as (w2 & Hl & Hp).
  apply rbind_Ok in Hp as (w3 & Ha & Hp).
  injection Hp as _ ->.
  destruct (append_if_missing_grown _ _ _ _ _ _ [] Hpg Hd) as (w1' & Hd' & Hs1);
    [done|].
  destruct (append_if_missing_grown _ _ _ _ _ _ _ Hpg Hl Hs1)
    as (w2' & Hl' & Hs2).
  destruct (append_if_missing_grown _ _ _ _ _ _ _ Hpg Ha Hs2)
    as (w3' & Ha' & Hs3).
  pose proof (py_in_apply_defaults_nested_true _ _ _ Hpg Hname) as Hname'.
  pose proof (py_in_apply_defaults_nested_true _ _ _ Hpg Hversion)
    as Hversion'.
  pose proof (py_in_apply_defaults_nested_true _ _ _ Hcg Hserver)
    as Hserver'.
  pose proof (py_in_apply_defaults_nested_true _ _ _ Hcg Hclient)
    as Hclient'.
  exists w3'. split; [|done].
  unfold validate_flower_toml_fields. rewrite Hproject', Hflower'.
  unfold append_if_missing at 1 2. rewrite Hname', Hversion'. cbn [rbind].
  rewrite Hd'. cbn [rbind]. rewrite Hl'. cbn [rbind]. rewrite Ha'.
  cbn [rbind py_in py_getitem].
  rewrite bool_decide_eq_true_2 by (by rewrite Hcomponents').
  cbn [negb]. rewrite Hcomponents'. cbn [rbind].
  unfold append_if_missing. by rewrite Hserver', Hclient'.
Qed.

Section validation_after_apply_defaults.
Context (H : Host).
Implicit Types (config defaults : dict) (s : host_state H).

(** The two references are what they were, as far as
    [validate_object_reference] can tell. *)
Lemma component_refs_after_apply_defaults config defaults errors warnings :
  validate_flower_toml_fields config = Ok (true, errors, warnings) →
  ∀ name, name = "serverapp" ∨ name = "clientapp" →
    match component_ref config name with
    | Raise e => component_ref (apply_defaults config defaults) name = Raise e
    | Ok cv =>
        ∃ cv', component_ref (apply_defaults config defaults) name = Ok cv' ∧
               ∀ s, call_validate_object_reference H cv' s =
                    call_validate_object_reference H cv s
    end.
Proof.
  intros Hret name Hn.
  destruct (valid_config_after_apply_defaults _ defaults _ _ Hret)
    as (project & fl & components & project' & fl' & components'
          & Hproject & Hflower & Hcomponents & Hproject' & Hflower'
          & Hcomponents' & Hpg & Hcg & Hname & Hversion & Hserver & Hclient).
  assert (py_in name components = Ok true) as Hin by (by destruct Hn as [->| ->]).
  rewrite (component_ref_unfold _ _ _ _ Hflower Hcomponents).
  rewrite (component_ref_unfold _ _ _ _ Hflower' Hcomponents').
  destruct components as [| | | |d];
    try (destruct Hcg as [->|[[] ->]]; done).
  simpl in Hin. injection Hin as [cv Hcv]%bool_decide_eq_true.
  simpl. rewrite Hcv.
  assert (∃ d' cv', components' = VDict d' ∧ d' !! name = Some cv' ∧
            (cv' = cv ∨ ∃ dv, cv' = apply_defaults_nested cv dv))
    as (d' & cv' & -> & Hcv' & Hg).
  { destruct Hcg as [->|[dv ->]]; [by exists d, cv; auto|].
    by apply apply_defaults_nested_dict_grown. }
  simpl. rewrite Hcv'. exists cv'. split; [done|].
  intros s. by apply call_validate_object_reference_grown.
Qed.

(** X26.  On a configuration the structural validator accepts,
    [validate_flower_toml] answers the same, and leaves the host in
    the same state, whether or not defaults were applied first. *)
Theorem validate_flower_toml_after_apply_defaults
    config defaults errors warnings s :
  validate_flower_toml_fields config = Ok (true, errors, warnings) →
  validate_flower_toml H (apply_defaults config defaults) s =
  validate_flower_toml H config s.
Proof.
  intros Hret.
  destruct (valid_config_after_apply_defaults _ defaults _ _ Hret)
    as (project & fl & components & project' & fl' & components'
          & Hproject & Hflower & Hcomponents & Hproject' & Hflower'
          & Hcomponents' & Hpg & Hcg & Hname & Hversion & Hserver0 & Hclient0).
  assert (∃ warnings',
            validate_flower_toml_fields (apply_defaults config defaults) =
              Ok (true, [], warnings')) as (warnings' & Hret').
  { unfold validate_flower_toml_fields in Hret. rewrite Hproject in Hret.
    apply rbind_Ok in Hret as ([errors0 warnings0] & Hp & _).
    apply rbind_Ok in Hp as (e1 & _ & Hp).
    apply rbind_Ok in Hp as (e2 & _ & Hp).
    apply rbind_Ok in Hp as (w1 & Hd & Hp).
    apply rbind_Ok in Hp as (w2 & Hl & Hp).
    apply rbind_Ok in Hp as (w3 & Ha & _).
    destruct (append_if_missing_grown _ _ _ _ _ _ [] Hpg Hd)
      as (w1' & Hd' & Hs1); [done|].
    destruct (append_if_missing_grown _ _ _ _ _ _ _ Hpg Hl Hs1)
      as (w2' & Hl' & Hs2).
    destruct (append_if_missing_grown _ _ _ _ _ _ _ Hpg Ha Hs2)
      as (w3' & Ha' & Hs3).
    exists w3'.
    unfold validate_flower_toml_fields. rewrite Hproject', Hflower'.
    unfold append_if_missing at 1 2.
    rewrite (py_in_apply_defaults_nested_true _ _ _ Hpg Hname),
      (py_in_apply_defaults_nested_true _ _ _ Hpg Hversion). cbn [rbind].
    rewrite Hd'. cbn [rbind]. rewrite Hl'. cbn [rbind]. rewrite Ha'.
    cbn [rbind py_in py_getitem].
    rewrite bool_decide_eq_true_2 by (by rewrite Hcomponents').
    cbn [negb]. rewrite Hcomponents'. cbn [rbind].
    unfold append_if_missing.
    by rewrite (py_in_apply_defaults_nested_true _ _ _ Hcg Hserver0),
      (py_in_apply_defaults_nested_true _ _ _ Hcg Hclient0). }
  rewrite (validate_flower_toml_valid_unfold H _ _ _ s Hret).
  rewrite (validate_flower_toml_valid_unfold H _ _ _ s Hret').
  pose proof (component_refs_after_apply_defaults _ defaults _ _ Hret
                "serverapp" (or_introl eq_refl)) as Hserver.
  pose proof (component_refs_after_apply_defaults _ defaults _ _ Hret
                "clientapp" (or_intror eq_refl)) as Hclient.
  destruct (component_ref config "serverapp") as [cv1|e1].
  - destruct Hserver as (cv1' & -> & ->).
    destruct (call_validate_object_reference H cv1 s)
      as [[[[|] [reason|]]|e] s1]; try done;
      (destruct (component_ref config "clientapp") as [cv2|e2];
       [destruct Hclient as (cv2' & -> & ->)|rewrite Hclient]; done).
  - by rewrite Hserver.
Qed.
End validation_after_apply_defaults.

(** ** apply_defaults in place, on any store *)

Lemma store_grows_refl h : store_grows h h.
Proof. intros l. destruct (h !! l) as [o|] eqn:Hl; [by exists o|done]. Qed.

Lemma store_grows_trans h1 h2 h3 :
  store_grows h1 h2 → store_grows h2 h3 → store_grows h1 h3.
Proof.
  intros H12 H23 l. specialize (H12 l). specialize (H23 l).
  destruct (h1 !! l) as [o1|].
  - destruct H12 as (o2 & Hl2 & Hsub). rewrite Hl2 in H23.
    destruct H23 as (o3 & Hl3 & Hsub'). exists o3. split; [done|by etrans].
  - by rewrite H12 in H23.
Qed.

Lemma store_grows_insert h c (o : pydict) key v :
  h !! c = Some o → o !! key = None →
  store_grows h (<[c := <[key := v]> o]> h).
Proof.
  intros Hc Hkey l. destruct (decide (c = l)) as [<-|Hne].
  - rewrite Hc, lookup_insert_eq. eexists. split; [done|].
    by apply insert_subseteq.
  - rewrite lookup_insert_ne by done.
    destruct (h !! l) as [o'|]; [by exists o'|done].
Qed.

(** What one turn of the loop did when it returned. *)
Lemma apply_defaults_iter_Ok rec c d n key acc h' :
  InPlace.apply_defaults_iter rec c d n key acc = Ok h' →
  ∃ hm oc od dv,
    acc = Ok hm ∧ hm !! c = Some oc ∧ hm !! d = Some od ∧
    od !! key = Some dv ∧
    match oc !! key with
    | Some cv =>
        match cv, dv with
        | PRef c', PRef d' => rec c' d' hm = Ok h'
        | _, _ => h' = hm
        end
    | None => h' = <[c := <[key := dv]> oc]> hm
    end.
Proof.
  unfold InPlace.apply_defaults_iter.
  intros (hm & -> & Hrun)%rbind_Ok.
  apply rbind_Ok in Hrun as ([] & _ & Hrun).
  apply rbind_Ok in Hrun as (oc & Hc & Hrun).
  apply rbind_Ok in Hrun as (od & Hd & Hrun).
  unfold deref in Hc, Hd.
  destruct (hm !! c) as [oc0|] eqn:Hc0; [|done]. injection Hc as ->.
  destruct (hm !! d) as [od0|] eqn:Hd0; [|done]. injection Hd as ->.
  unfold py_dict_getitem in Hrun.
  destruct (od !! key) as [dv|] eqn:Hdv; [|by destruct (oc !! key)].
  exists hm, oc, od, dv. do 4 (split; [done|]).
  destruct (oc !! key) as [cv|]; simpl in Hrun.
  - destruct cv, dv; try (by injection Hrun); done.
  - by injection Hrun.
Qed.

Lemma apply_defaults_in_place_run_Ok depth c d h h' :
  InPlace.apply_defaults (S depth) c d h = Ok h' →
  ∃ keys,
    h !! d = Some keys ∧
    map_fold (λ key _, InPlace.apply_defaults_iter
                         (InPlace.apply_defaults depth) c d (size keys) key)
             (Ok h) keys = Ok h'.
Proof.
  simpl. intros (keys & Hkeys & Hrun)%rbind_Ok.
  apply rbind_Ok in Hrun as (hm & Hfold & Hrun).
  apply rbind_Ok in Hrun as ([] & _ & [= <-]).
  unfold deref in Hkeys. destruct (h !! d) as [od|]; [|done].
  injection Hkeys as ->. by exists keys.
Qed.

Lemma apply_defaults_in_place_grows depth c d h h' :
  InPlace.apply_defaults depth c d h = Ok h' → store_grows h h'.
Proof.
  revert c d h h'. induction depth as [|depth IH]; intros c d h h'; [done|].
  intros (keys & _ & Hfold)%apply_defaults_in_place_run_Ok.
  revert h' Hfold.
  refine (map_fold_weak_ind
            (λ r (_ : pydict), ∀ h', r = Ok h' → store_grows h h')
            _ _ _ _ keys).
  { intros h' [= <-]. apply store_grows_refl. }
  intros key x m r _ IHfold h' Hiter.
  apply apply_defaults_iter_Ok in Hiter
    as (hm & oc & od & dv & -> & Hc & Hd & Hdv & Hiter).
  apply (store_grows_trans _ hm); [by apply IHfold|].
  destruct (oc !! key) as [cv|] eqn:Hkey.
  - destruct cv as [v|c']; [subst; apply store_grows_refl|].
    destruct dv as [v|d']; [subst; apply store_grows_refl|].
    by eapply IH.
  - subst h'. by apply store_grows_insert.
Qed.

(** X27.  Whatever the store, shared dicts and cycles included: when the
    run in place returns, no dict has gone, none is new, and every
    entry a dict had is still there with the reference or value it
    had.  [apply_defaults] only ever adds entries. *)
Theorem apply_defaults_in_place_only_adds depth c d h h' :
  InPlace.apply_defaults depth c d h = Ok h' →
  dom h' = dom h ∧
  ∀ l o key pv, h !! l = Some o → o !! key = Some pv →
    ∃ o', h' !! l = Some o' ∧ o' !! key = Some pv.
Proof.
  intros Hgrows%apply_defaults_in_place_grows. split.
  - apply set_eq. intros l. rewrite !elem_of_dom. specialize (Hgrows l).
    destruct (h !! l) as [o|].
    + destruct Hgrows as (o' & -> & _). split; eauto.
    + rewrite Hgrows. done.
  - intros l o key pv Hl Hkey. specialize (Hgrows l). rewrite Hl in Hgrows.
    destruct Hgrows as (o' & Hl' & Hsub). exists o'. split; [done|].
    by eapply lookup_weaken.
Qed.

(** X28.  Whatever the store: when the run in place returns, the
    configuration's dict has every key the defaults' dict had when the
    run began. *)
Theorem apply_defaults_in_place_covers depth c d h h' (oc od : pydict) :
  InPlace.apply_defaults depth c d h = Ok h' →
  h !! c = Some oc →
  h !! d = Some od →
  ∃ oc', h' !! c = Some oc' ∧ oc ⊆ oc' ∧ dom od ⊆ dom oc'.
Proof.
  destruct depth as [|depth]; [done|].
  intros (keys & Hkeys & Hfold)%apply_defaults_in_place_run_Ok Hc Hd.
  rewrite Hd in Hkeys. injection Hkeys as <-.
  cut (store_grows h h' ∧
       ∃ oc', h' !! c = Some oc' ∧ oc ⊆ oc' ∧ dom od ⊆ dom oc');
    [by intros [_ ?]|].
  revert h' Hfold.
  refine (map_fold_weak_ind
            (λ r (m : pydict), ∀ h', r = Ok h' →
               store_grows h h' ∧
               ∃ oc', h' !! c = Some oc' ∧ oc ⊆ oc' ∧ dom m ⊆ dom oc')
            _ _ _ _ od).
  { intros h' [= <-]. split; [apply store_grows_refl|].
    exists oc. split; [done|]. split; [done|]. by rewrite dom_empty. }
  intros key x m r _ IHfold h' Hiter.
  apply apply_defaults_iter_Ok in Hiter
    as (hm & oc1 & od1 & dv & -> & Hc1 & Hd1 & Hdv & Hiter).
  destruct (IHfold hm eq_refl) as (Hgrows & oc1' & Hc1' & Hsub & Hdom).
  rewrite Hc1 in Hc1'. injection Hc1' as <-.
  assert (store_grows hm h' ∧
          ∃ oc', h' !! c = Some oc' ∧ oc1 ⊆ oc' ∧ is_Some (oc' !! key))
    as (Hstep & oc' & Hc' & Hsub' & Hkey').
  { destruct (oc1 !! key) as [cv|] eqn:Hkey.
    - assert (store_grows hm h') as Hstep.
      { destruct cv as [v|c']; [subst; apply store_grows_refl|].
        destruct dv as [v|d']; [subst; apply store_grows_refl|].
        by eapply apply_defaults_in_place_grows. }
      split; [done|]. specialize (Hstep c). rewrite Hc1 in Hstep.
      destruct Hstep as (oc' & Hc' & Hsub'). exists oc'.
      do 2 (split; [done|]). exists cv. by eapply lookup_weaken.
    - subst h'. split; [by apply store_grows_insert|].
      exists (<[key := dv]> oc1). rewrite !lookup_insert_eq.
      split; [done|]. split; [by apply insert_subseteq|eauto]. }
  split; [by eapply store_grows_trans|].
  exists oc'. split; [done|]. split; [by etrans|].
  rewrite dom_insert. apply union_least.
  - by apply singleton_subseteq_l, elem_of_dom.
  - etrans; [done|]. by apply subseteq_dom.
Qed.

(** ** apply_defaults in place: the recursion limit *)

Lemma apply_defaults_iter_more_depth
    (rec1 rec2 : loc → loc → store → result store) c d n key acc r :
  (∀ c' d' h r', rec1 c' d' h = r' → r' ≠ Raise RecursionError →
     rec2 c' d' h = r') →
  InPlace.apply_defaults_iter rec1 c d n key acc = r →
  r ≠ Raise RecursionError →
  InPlace.apply_defaults_iter rec2 c d n key acc = r.
Proof.
  intros Hrec. unfold InPlace.apply_defaults_iter.
  destruct acc as [h|e]; simpl; [|done].
  destruct (check_unchanged_size h d n) as [[]|e]; simpl; [|done].
  destruct (deref h c) as [oc|e]; simpl; [|done].
  destruct (deref h d) as [od|e]; simpl; [|done].
  destruct (oc !! key) as [cv|]; [|done].
  destruct (py_dict_getitem od key) as [dv|e]; simpl; [|done].
  destruct cv as [v|c']; [done|]. destruct dv as [v|d']; [done|].
  apply Hrec.
Qed.

(** X29.  The recursion limit shows in no other way than by
    [RecursionError]: a run that ends otherwise, returning or raising,
    ends the same way when more depth is left. *)
Theorem apply_defaults_in_place_depth depth c d h r :
  InPlace.apply_defaults depth c d h = r →
  r ≠ Raise RecursionError →
  InPlace.apply_defaults (S depth) c d h = r.
Proof.
  revert c d h r. induction depth as [|depth IH]; intros c d h r; [by intros <-|].
  intros Hrun Hr.
  change (InPlace.apply_defaults (S depth) c d h) with
    (rbind (deref h d) (λ keys,
       rbind (map_fold (λ key _, InPlace.apply_defaults_iter
                          (InPlace.apply_defaults depth) c d (size keys) key)
                       (Ok h) keys)
         (λ h1, rbind (check_unchanged_size h1 d (size keys)) (λ _, Ok h1))))
    in Hrun.
  change (InPlace.apply_defaults (S (S depth)) c d h) with
    (rbind (deref h d) (λ keys,
       rbind (map_fold (λ key _, InPlace.apply_defaults_iter
                          (InPlace.apply_defaults (S depth)) c d (size keys) key)
                       (Ok h) keys)
         (λ h1, rbind (check_unchanged_size h1 d (size keys)) (λ _, Ok h1)))).
  destruct (deref h d) as [keys|e]; [|done]. cbn [rbind] in *.
  rewrite map_fold_foldr in *.
  assert (∀ l a,
    foldr (uncurry (λ key (_ : pyval), InPlace.apply_defaults_iter
                      (InPlace.apply_defaults depth) c d (size keys) key))
          (Ok h) l = a →
    a ≠ Raise RecursionError →
    foldr (uncurry (λ key (_ : pyval), InPlace.apply_defaults_iter
                      (InPlace.apply_defaults (S depth)) c d (size keys) key))
          (Ok h) l = a) as Hfold.
  { induction l as [|[key x] l IHl]; intros a; [done|].
    cbn [foldr uncurry]. specialize (IHl _ eq_refl).
    destruct (foldr _ (Ok h) l) as [hm|e]; intros Ha Hne.
    - rewrite IHl by done. by eapply apply_defaults_iter_more_depth.
    - subst a. by rewrite IHl. }
  specialize (Hfold (map_to_list keys) _ eq_refl).
  destruct (foldr _ (Ok h) (map_to_list keys)) as [hm|e].
  - by rewrite Hfold.
  - subst r. by rewrite Hfold.
Qed.

(** A key the configuration lacks, the only key of the defaults, is
    filled in. *)
Lemma apply_defaults_in_place_fill depth (h : store) c d (oc : pydict) key pv :
  h !! c = Some oc →
  oc !! key = None →
  h !! d = Some {[ key := pv ]} →
  c ≠ d →
  InPlace.apply_defaults (S depth) c d h = Ok (<[c := <[key := pv]> oc]> h).
Proof.
  intros Hc Hkey Hd Hne.
  cbn [InPlace.apply_defaults]. unfold deref at 1. rewrite Hd. cbn [rbind].
  rewrite map_fold_singleton.
  unfold InPlace.apply_defaults_iter. cbn [rbind].
  unfold check_unchanged_size at 1, deref. rewrite Hd, Hc. cbn [rbind].
  rewrite map_size_singleton. cbn [Nat.eqb rbind].
  rewrite Hkey. unfold py_dict_getitem. rewrite lookup_singleton_eq.
  cbn [rbind]. unfold check_unchanged_size, deref.
  rewrite lookup_insert_ne, Hd by done. cbn [rbind].
  by rewrite map_size_singleton.
Qed.

(** * Further concrete runs *)

Lemma app_environment_load_example :
  load_flower_toml app_environment None =
    Ok (Some (sample_config "os:getcwd" "os:path.join")).
Proof.
  apply load_flower_toml_some_iff_parsed.
  by exists "/app/flower.toml", "the text of flower.toml".
Defined.

Lemma unknown_section_ignored_example :
  validate_flower_toml_fields
    (<[ "tool" := VInt 1 ]> (sample_config "os:getcwd" "os:path.join")) =
  validate_flower_toml_fields (sample_config "os:getcwd" "os:path.join") ∧
  validate_flower_toml os_host
    (<[ "tool" := VInt 1 ]> (sample_config "os:getcwd" "os:path.join")) [] =
  validate_flower_toml os_host (sample_config "os:getcwd" "os:path.join") [].
Proof.
  apply validate_flower_toml_reads_two_sections; by rewrite lookup_insert_ne.
Defined.

Lemma sample_config_on_tables_example :
  ∃ errors warnings,
    validate_flower_toml_fields (sample_config "os:getcwd" "os:path.join") =
      Ok (has_required_properties (sample_config "os:getcwd" "os:path.join"),
          errors, warnings).
Proof.
  apply validate_flower_toml_fields_on_tables. vm_compute. reflexivity.
Defined.

Lemma empty_config_missing_sections_example :
  ((∅ : dict) !! "project" = None →
     false = false ∧ @nil string = [] ∧
     ∃ rest, [msg_missing_project; msg_missing_flower] =
               msg_missing_project :: rest) ∧
  ((∅ : dict) !! "flower" = None →
     false = false ∧
     ∃ before, [msg_missing_project; msg_missing_flower] =
                 (before ++ [msg_missing_flower])%list) ∧
  (∀ flower, (∅ : dict) !! "flower" = Some flower →
     py_in "components" flower = Ok false →
     false = false ∧
     ∃ before, [msg_missing_project; msg_missing_flower] =
                 (before ++ [msg_missing_components])%list).
Proof.
  apply (validate_flower_toml_fields_missing_section ∅). reflexivity.
Defined.

Lemma empty_config_messages_example :
  [msg_missing_project; msg_missing_flower] `sublist_of` all_errors ∧
  @nil string `sublist_of` all_warnings ∧
  NoDup [msg_missing_project; msg_missing_flower] ∧ NoDup (@nil string) ∧
  (List.length [msg_missing_project; msg_missing_flower] ≤ 4)%nat ∧
  (List.length (@nil string) ≤ 3)%nat.
Proof.
  apply (validate_flower_toml_fields_messages ∅ false). reflexivity.
Defined.

Lemma unknown_attribute_reference_example :
  (false = true ∧
   Some "Unable to load attribute nonexistent_attr_xyz from module os" = None) ∨
  (false = false ∧
   ∃ msg,
     Some "Unable to load attribute nonexistent_attr_xyz from module os" =
       Some msg ∧
     (msg = "Missing module in " ++ "os:nonexistent_attr_xyz" ∨
      msg = "Missing attribute in " ++ "os:nonexistent_attr_xyz" ∨
      msg = "Unable to load module " ++ "os" ∨
      msg = "Unable to load attribute " ++ "nonexistent_attr_xyz"
              ++ " from module " ++ "os")).
Proof.
  apply (validate_object_reference_answers os_host
           "os:nonexistent_attr_xyz" "os" ":" "nonexistent_attr_xyz" []
           false _ ["import os"; "getattr os nonexistent_attr_xyz"]);
    vm_compute; reflexivity.
Defined.

Lemma os_path_join_prefix_example :
  ∃ s1, validate_object_reference os_host ("os" ++ ":" ++ "path") [] =
          (Ok (true, None), s1).
Proof.
  apply (validate_object_reference_prefix os_host "os" "path" "join" []
           ["import os"; "getattr os path"; "getattr os.path join"]);
    [reflexivity|discriminate|vm_compute; reflexivity].
Defined.

Lemma sample_config_verdict_example :
  (true = true ↔ @nil string = []) ∧ (true = true → @nil string = []).
Proof.
  apply (validate_flower_toml_verdict os_host
           (sample_config "os:getcwd" "os:path.join") [] true [] []
           ["import os"; "getattr os getcwd"; "import os";
            "getattr os path"; "getattr os.path join"]).
  vm_compute. reflexivity.
Defined.

Lemma sample_config_valid_example :
  @nil string = [] ∧ @nil string = [] ∧
  (∃ structural_warnings,
     validate_flower_toml_fields (sample_config "os:getcwd" "os:path.join") =
       Ok (true, [], structural_warnings)) ∧
  ∃ serverapp clientapp s1,
    component_ref (sample_config "os:getcwd" "os:path.join") "serverapp" =
      Ok (VStr serverapp) ∧
    validate_object_reference os_host serverapp [] = (Ok (true, None), s1) ∧
    component_ref (sample_config "os:getcwd" "os:path.join") "clientapp" =
      Ok (VStr clientapp) ∧
    validate_object_reference os_host clientapp s1 =
      (Ok (true, None),
       ["import os"; "getattr os getcwd"; "import os";
        "getattr os path"; "getattr os.path join"]).
Proof.
  apply (validate_flower_toml_valid_inv os_host
           (sample_config "os:getcwd" "os:path.join") [] [] []).
  vm_compute. reflexivity.
Defined.

Lemma apply_defaults_any_order_example :
  foldl (λ config item,
           apply_defaults_step apply_defaults_nested item.1 item.2 config)
        nested_config (map_to_list nested_defaults) =
  apply_defaults nested_config nested_defaults.
Proof. by apply apply_defaults_any_order. Defined.

Lemma apply_defaults_in_place_refines_example :
  ∃ c d h1,
    lval (load (VDict nested_config) ∅).1 = PRef c ∧
    lval (load (VDict nested_defaults) (load (VDict nested_config) ∅).2).1 =
      PRef d ∧
    InPlace.apply_defaults 4 c d
      (load (VDict nested_defaults) (load (VDict nested_config) ∅).2).2 =
      Ok h1 ∧
    reads h1 (PRef c) (VDict (apply_defaults nested_config nested_defaults)) ∧
    reads h1 (PRef d) (VDict nested_defaults) ∧
    (∀ l, ¬ in_tree l (load (VDict nested_config) ∅).1 →
       h1 !! l =
       (load (VDict nested_defaults) (load (VDict nested_config) ∅).2).2 !! l).
Proof.
  apply (apply_defaults_in_place_refines nested_config nested_defaults ∅
           _ (load (VDict nested_config) ∅).2);
    [apply surjective_pairing|apply surjective_pairing|vm_compute; lia].
Defined.

Lemma apply_defaults_in_place_shares_example :
  ∃ c d h1 oc od,
    lval (load (VDict ∅) ∅).1 = PRef c ∧
    lval (load (VDict nested_defaults) (load (VDict ∅) ∅).2).1 = PRef d ∧
    InPlace.apply_defaults 4 c d
      (load (VDict nested_defaults) (load (VDict ∅) ∅).2).2 = Ok h1 ∧
    h1 !! c = Some oc ∧ h1 !! d = Some od ∧
    ∀ key dd, (∅ : dict) !! key = None →
      nested_defaults !! key = Some (VDict dd) →
      ∃ l, oc !! key = Some (PRef l) ∧ od !! key = Some (PRef l).
Proof.
  apply (apply_defaults_in_place_shares ∅ nested_defaults ∅
           _ (load (VDict ∅) ∅).2);
    [apply surjective_pairing|apply surjective_pairing|vm_compute; lia].
Defined.

Lemma apply_defaults_in_place_twice_example :
  ∃ c d h1,
    lval (load (VDict nested_config) ∅).1 = PRef c ∧
    lval (load (VDict nested_defaults) (load (VDict nested_config) ∅).2).1 =
      PRef d ∧
    InPlace.apply_defaults 4 c d
      (load (VDict nested_defaults) (load (VDict nested_config) ∅).2).2 =
      Ok h1 ∧
    InPlace.apply_defaults 4 c d h1 = Ok h1.
Proof.
  apply (apply_defaults_in_place_twice nested_config nested_defaults ∅
           _ (load (VDict nested_config) ∅).2);
    [apply surjective_pairing|apply surjective_pairing|vm_compute; lia].
Defined.

Lemma apply_defaults_in_place_self_example :
  ∃ c, lval (load (VDict nested_defaults) ∅).1 = PRef c ∧
       InPlace.apply_defaults 4 c c (load (VDict nested_defaults) ∅).2 =
         Ok (load (VDict nested_defaults) ∅).2.
Proof.
  apply (apply_defaults_in_place_self nested_defaults ∅);
    [apply surjective_pairing|vm_compute; lia].
Defined.

Lemma self_containing_dict_example :
  InPlace.apply_defaults 1000 1%positive 1%positive
    {[ 1%positive := {[ "a" := PRef 1%positive ]} ]} =
  Raise RecursionError.
Proof.
  apply (apply_defaults_in_place_cyclic _ _ _ "a" {[ "a" := PRef 1%positive ]});
    apply lookup_singleton_eq.
Defined.

Lemma config_holding_defaults_example :
  InPlace.apply_defaults 2 1%positive 2%positive
    {[ 1%positive := {[ "a" := PRef 2%positive ]};
       2%positive := {[ "a" := PRef 3%positive ]};
       3%positive := {[ "z" := PData (VInt 1) ]} ]} =
  Raise RuntimeError.
Proof.
  apply (apply_defaults_in_place_changes_defaults _ _ _ 3%positive "a" "z"
           {[ "a" := PRef 2%positive ]} (PData (VInt 1)));
    [by rewrite lookup_insert_ne, lookup_insert_eq
    |by rewrite !lookup_insert_ne, lookup_singleton_eq
    |by rewrite lookup_insert_eq
    |apply lookup_singleton_eq
    |done|done].
Defined.

Lemma shared_empty_dict_example :
  InPlace.apply_defaults 2 1%positive 2%positive
    {[ 1%positive := {[ "k" := PRef 3%positive ]};
       2%positive := {[ "k" := PRef 4%positive ]};
       3%positive := ∅;
       4%positive := {[ "j" := PRef 3%positive ]} ]} =
    Ok (<[3%positive := {[ "j" := PRef 3%positive ]}]>
          {[ 1%positive := {[ "k" := PRef 3%positive ]};
             2%positive := {[ "k" := PRef 4%positive ]};
             3%positive := ∅;
             4%positive := {[ "j" := PRef 3%positive ]} ]}) ∧
  ∀ depth', InPlace.apply_defaults depth' 1%positive 2%positive
              (<[3%positive := {[ "j" := PRef 3%positive ]}]>
                 {[ 1%positive := {[ "k" := PRef 3%positive ]};
                    2%positive := {[ "k" := PRef 4%positive ]};
                    3%positive := ∅;
                    4%positive := {[ "j" := PRef 3%positive ]} ]}) =
            Raise RecursionError.
Proof.
  apply (apply_defaults_in_place_shared_then_cyclic _ _ _ _ 4%positive "k" "j"
           {[ "k" := PRef 3%positive ]});
    [by rewrite lookup_insert_eq
    |apply lookup_singleton_eq
    |by do 2 (rewrite lookup_insert_ne by done); rewrite lookup_insert_eq
    |by rewrite lookup_insert_ne, lookup_insert_eq
    |by rewrite !lookup_insert_ne, lookup_singleton_eq].
Defined.

Lemma license_defaults_keep_valid_example :
  ∃ warnings',
    validate_flower_toml_fields
      (apply_defaults (sample_config "os:getcwd" "os:path.join")
                      license_defaults) =
      Ok (true, [], warnings') ∧
    warnings' `sublist_of` recommended_warnings sample_project.
Proof.
  apply (apply_defaults_keeps_structure_valid
           (sample_config "os:getcwd" "os:path.join") license_defaults []).
  vm_compute. reflexivity.
Defined.

Lemma license_defaults_same_verdict_example :
  validate_flower_toml os_host
    (apply_defaults (sample_config "os:getcwd" "os:path.join")
                    license_defaults) [] =
  validate_flower_toml os_host (sample_config "os:getcwd" "os:path.join") [].
Proof.
  apply (validate_flower_toml_after_apply_defaults os_host
           (sample_config "os:getcwd" "os:path.join") license_defaults []
           (recommended_warnings sample_project)).
  vm_compute. reflexivity.
Defined.

Lemma flat_store_run :
  InPlace.apply_defaults 1 1%positive 2%positive flat_store =
    Ok (<[1%positive := <["b" := PData (VInt 3)]> {[ "a" := PData (VInt 1) ]}]>
          flat_store).
Proof.
  apply apply_defaults_in_place_fill;
    [apply lookup_insert_eq
    |by apply lookup_singleton_ne
    |by unfold flat_store; rewrite lookup_insert_ne, lookup_singleton_eq
    |done].
Defined.

Lemma flat_store_only_adds_example :
  dom (<[1%positive := <["b" := PData (VInt 3)]> {[ "a" := PData (VInt 1) ]}]>
         flat_store) = dom flat_store ∧
  ∀ l o key pv, flat_store !! l = Some o → o !! key = Some pv →
    ∃ o', <[1%positive := <["b" := PData (VInt 3)]>
                             {[ "a" := PData (VInt 1) ]}]> flat_store !! l =
            Some o' ∧
          o' !! key = Some pv.
Proof.
  apply (apply_defaults_in_place_only_adds 1 1%positive 2%positive).
  apply flat_store_run.
Defined.

Lemma flat_store_covers_example :
  ∃ oc',
    <[1%positive := <["b" := PData (VInt 3)]> {[ "a" := PData (VInt 1) ]}]>
      flat_store !! 1%positive = Some oc' ∧
    ({[ "a" := PData (VInt 1) ]} : pydict) ⊆ oc' ∧
    dom ({[ "b" := PData (VInt 3) ]} : pydict) ⊆ dom oc'.
Proof.
  apply (apply_defaults_in_place_covers 1 1%positive 2%positive flat_store).
  - apply flat_store_run.
  - apply lookup_insert_eq.
  - by unfold flat_store; rewrite lookup_insert_ne, lookup_singleton_eq.
Defined.

Lemma flat_store_more_depth_example :
  InPlace.apply_defaults 2 1%positive 2%positive flat_store =
    Ok (<[1%positive := <["b" := PData (VInt 3)]> {[ "a" := PData (VInt 1) ]}]>
          flat_store).
Proof.
  apply apply_defaults_in_place_depth; [apply flat_store_run|done].
Defined.
